(** * fastrand64-go: the Xoshiro256** core, SplitMix64 seeding, the byte-fill
      routine and the pool-backed wrapper, embedded from [fastrand64.go].

    Go's [uint64] is modelled as [Z] with the wrap-around written out
    ([wrap64]); a [[]byte] is a [list Z] of 8-bit values updated by index;
    a method with a pointer receiver becomes a function returning the new
    state next to its result; a Go panic is the [Panic] outcome of [result]. *)

From Stdlib Require Import ZArith Lia List String Bool.
From stdpp Require Import base list.
From Equations Require Import Equations.
From Equations.Prop Require Import Logic.
Import ListNotations.

Local Open Scope Z_scope.

(* ===================================================================== *)
(** ** Machine integers                                                   *)
(* ===================================================================== *)

(** Conversion to [uint64], and the truncation every [uint64] operation
    that can overflow performs. *)
Definition wrap64 (z : Z) : Z := z mod 2 ^ 64.

(** Conversion to [uint32]. *)
Definition wrap32 (z : Z) : Z := z mod 2 ^ 32.

(** Conversion to [byte]. *)
Definition byte (z : Z) : Z := z mod 2 ^ 8.

(** Conversion to [int64] (two's complement reading of the low 64 bits). *)
Definition int64 (z : Z) : Z :=
  let m := wrap64 z in if m <? 2 ^ 63 then m else m - 2 ^ 64.

(** The range of a [uint64] value. *)
Definition is_uint64 (z : Z) : Prop := 0 <= z < 2 ^ 64.

(* ===================================================================== *)
(** ** Outcomes of code that may panic                                    *)
(* ===================================================================== *)

Inductive result (A : Type) : Type :=
| Ok (a : A)
| Panic (msg : string).
Arguments Ok {A} a.
Arguments Panic {A} msg.

(** [result] is a monad: a panic aborts what follows it. *)
#[export] Instance result_ret : MRet result := fun A a => Ok a.
#[export] Instance result_bind : MBind result := fun A B k m =>
  match m with
  | Ok a => k a
  | Panic msg => Panic msg
  end.

(* ===================================================================== *)
(** ** [rol64] and [Splitmix64]                                           *)
(* ===================================================================== *)

(** [func rol64(x uint64, k uint64) uint64 { return (x << k) | (x >> (64 - k)) }]
    The shift count [64 - k] is itself a [uint64] subtraction. *)
Definition rol64 (x k : Z) : Z :=
  Z.lor (wrap64 (Z.shiftl x k)) (Z.shiftr x (wrap64 (64 - k))).

Definition Splitmix64 (index : Z) : Z :=
  let z := wrap64 (index + 0x9E3779B97F4A7C15) in
  let z := wrap64 (Z.lxor z (Z.shiftr z 30) * 0xBF58476D1CE4E5B9) in
  let z := wrap64 (Z.lxor z (Z.shiftr z 27) * 0x94D049BB133111EB) in
  let z := Z.lxor z (Z.shiftr z 31) in
  z.

(* ===================================================================== *)
(** ** The [UnsafeRNG] interface                                          *)
(* ===================================================================== *)

(** [type UnsafeRNG interface { Uint64() uint64 }]: a generator of type [G]
    returns a [uint64] draw and its state after the call. *)
Class UnsafeRNG (G : Type) : Type := {
  Uint64 : G -> Z * G;
  Uint64_range : forall g, is_uint64 (fst (Uint64 g))
}.

(** The state of a generator after [k] successive calls of [Uint64]. *)
Fixpoint advance {G : Type} `{UnsafeRNG G} (k : nat) (g : G) : G :=
  match k with
  | O => g
  | S k' => advance k' (snd (Uint64 g))
  end.

(** The value returned by call number [k] (counting from 0). *)
Definition nth_draw {G : Type} `{UnsafeRNG G} (g : G) (k : nat) : Z :=
  fst (Uint64 (advance k g)).

(** A generator that also counts how many times [Uint64] was called on it. *)
Definition counted (G : Type) : Type := (G * nat)%type.

Definition counted_Uint64 {G : Type} `{UnsafeRNG G} (c : counted G)
  : Z * counted G :=
  let '(x, g') := Uint64 (fst c) in (x, (g', S (snd c))).

Lemma counted_Uint64_range {G : Type} `{UnsafeRNG G} (c : counted G) :
  is_uint64 (fst (counted_Uint64 c)).
Proof.
  unfold counted_Uint64. pose proof (Uint64_range (fst c)) as Hr.
  destruct (Uint64 (fst c)) as [x g']. exact Hr.
Qed.

#[export] Instance counted_rng {G : Type} `{UnsafeRNG G}
  : UnsafeRNG (counted G) :=
  {| Uint64 := counted_Uint64; Uint64_range := counted_Uint64_range |}.

(** The number of calls a counted generator has seen. *)
Definition calls {G : Type} (c : counted G) : nat := snd c.

(* ===================================================================== *)
(** ** The Xoshiro256** core                                              *)
(* ===================================================================== *)

Record UnsafeXoshiro256ssRNG : Type := mkXoshiro {
  s0 : Z;
  s1 : Z;
  s2 : Z;
  s3 : Z
}.

(** Field assignments [r.sK = v]. *)
Definition set_s0 (v : Z) (r : UnsafeXoshiro256ssRNG) := mkXoshiro v (s1 r) (s2 r) (s3 r).
Definition set_s1 (v : Z) (r : UnsafeXoshiro256ssRNG) := mkXoshiro (s0 r) v (s2 r) (s3 r).
Definition set_s2 (v : Z) (r : UnsafeXoshiro256ssRNG) := mkXoshiro (s0 r) (s1 r) v (s3 r).
Definition set_s3 (v : Z) (r : UnsafeXoshiro256ssRNG) := mkXoshiro (s0 r) (s1 r) (s2 r) v.

(** Every field holds a [uint64]. *)
Definition wf_state (r : UnsafeXoshiro256ssRNG) : Prop :=
  is_uint64 (s0 r) /\ is_uint64 (s1 r) /\ is_uint64 (s2 r) /\ is_uint64 (s3 r).

(** The all-zero state. *)
Definition zero_state : UnsafeXoshiro256ssRNG := mkXoshiro 0 0 0 0.

(** The index at which [Splitmix64] is about to be called in a seeding
    loop still has a zero result: 1 if so, 0 otherwise.  Two consecutive
    indices never both do, which is why every loop of [Seed] ends. *)
Definition zero_at (seed i : Z) : nat :=
  if Splitmix64 (wrap64 (wrap64 seed + wrap64 i)) =? 0 then 1%nat else 0%nat.

(* ===================================================================== *)
(** ** Arithmetic of the 64-bit operations                                *)
(* ===================================================================== *)

Lemma wrap64_range (z : Z) : is_uint64 (wrap64 z).
Proof. unfold is_uint64, wrap64. apply Z.mod_pos_bound. lia. Qed.

Lemma wrap64_small (z : Z) : is_uint64 z -> wrap64 z = z.
Proof. unfold is_uint64, wrap64. intros Hz. apply Z.mod_small. exact Hz. Qed.

Lemma is_uint64_land_ones (z : Z) : is_uint64 z <-> Z.land z (Z.ones 64) = z.
Proof.
  rewrite Z.land_ones by lia. split.
  - intros Hz. apply Z.mod_small. exact Hz.
  - intros <-. apply Z.mod_pos_bound. lia.
Qed.

Lemma lxor_uint64 (a b : Z) : is_uint64 a -> is_uint64 b -> is_uint64 (Z.lxor a b).
Proof.
  rewrite !is_uint64_land_ones. intros Ha Hb.
  apply Z.bits_inj'. intros n Hn.
  apply (f_equal (fun z => Z.testbit z n)) in Ha, Hb.
  rewrite Z.land_spec in Ha, Hb. rewrite Z.land_spec, !Z.lxor_spec.
  destruct (Z.testbit a n), (Z.testbit b n), (Z.testbit (Z.ones 64) n);
    simpl in *; congruence.
Qed.

Lemma lor_uint64 (a b : Z) : is_uint64 a -> is_uint64 b -> is_uint64 (Z.lor a b).
Proof.
  rewrite !is_uint64_land_ones. intros Ha Hb.
  rewrite Z.land_lor_distr_l, Ha, Hb. reflexivity.
Qed.

Lemma shiftr_uint64 (a k : Z) : is_uint64 a -> 0 <= k -> is_uint64 (Z.shiftr a k).
Proof.
  unfold is_uint64. intros [Ha0 Ha] Hk. rewrite Z.shiftr_div_pow2 by lia.
  assert (0 < 2 ^ k) by (apply Z.pow_pos_nonneg; lia).
  split; [apply Z.div_pos; lia |].
  assert (a / 2 ^ k <= a) by (apply Z.div_le_upper_bound; nia). lia.
Qed.

(** A right shift by [k > 0] xored into a non-negative number cancels only zero. *)
Lemma xorshift_eq_0 (z k : Z) :
  0 <= z -> 0 < k -> Z.lxor z (Z.shiftr z k) = 0 -> z = 0.
Proof.
  intros Hz Hk Hx. apply Z.lxor_eq in Hx.
  rewrite Z.shiftr_div_pow2 in Hx by lia.
  destruct (Z.eq_dec z 0) as [E | NE]; [exact E | exfalso].
  assert (z / 2 ^ k < z) as Hlt.
  { apply Z.div_lt; [lia | apply Z.pow_gt_1; lia]. }
  lia.
Qed.

(** Multiplying by a unit of Z/2^64 maps only zero to zero. *)
Lemma unit_mul_eq_0 (m minv w : Z) :
  wrap64 (m * minv) = 1 -> wrap64 (w * m) = 0 -> wrap64 w = 0.
Proof.
  unfold wrap64. intros Hunit Hw.
  rewrite <- (Z.mul_1_r w), <- Hunit, Z.mul_mod_idemp_r by lia.
  rewrite Z.mul_assoc, <- Z.mul_mod_idemp_l, Hw by lia.
  reflexivity.
Qed.

(** [Splitmix64] vanishes at one residue only: the one the first addition
    sends to zero. *)
Lemma Splitmix64_eq_0 (x : Z) :
  Splitmix64 x = 0 -> wrap64 (x + 0x9E3779B97F4A7C15) = 0.
Proof.
  unfold Splitmix64. cbv zeta. intros H3.
  set (z1 := wrap64 (x + 0x9E3779B97F4A7C15)) in *.
  set (z2 := wrap64 (Z.lxor z1 (Z.shiftr z1 30) * 0xBF58476D1CE4E5B9)) in *.
  set (z3 := wrap64 (Z.lxor z2 (Z.shiftr z2 27) * 0x94D049BB133111EB)) in *.
  pose proof (wrap64_range (x + 0x9E3779B97F4A7C15)) as R1. fold z1 in R1.
  pose proof (wrap64_range (Z.lxor z1 (Z.shiftr z1 30) * 0xBF58476D1CE4E5B9)) as R2.
  fold z2 in R2.
  pose proof (wrap64_range (Z.lxor z2 (Z.shiftr z2 27) * 0x94D049BB133111EB)) as R3.
  fold z3 in R3.
  unfold is_uint64 in R1, R2, R3.
  assert (z3 = 0) as E3 by (apply (xorshift_eq_0 z3 31); lia).
  assert (Z.lxor z2 (Z.shiftr z2 27) = 0) as X2.
  { rewrite <- (wrap64_small (Z.lxor z2 (Z.shiftr z2 27)))
      by (apply lxor_uint64; [|apply shiftr_uint64]; unfold is_uint64; lia).
    apply (unit_mul_eq_0 0x94D049BB133111EB 0x319642B2D24D8EC3);
      [reflexivity | exact E3]. }
  assert (z2 = 0) as E2 by (apply (xorshift_eq_0 z2 27); lia).
  assert (Z.lxor z1 (Z.shiftr z1 30) = 0) as X1.
  { rewrite <- (wrap64_small (Z.lxor z1 (Z.shiftr z1 30)))
      by (apply lxor_uint64; [|apply shiftr_uint64]; unfold is_uint64; lia).
    apply (unit_mul_eq_0 0xBF58476D1CE4E5B9 0x96DE1B173F119089);
      [reflexivity | exact E2]. }
  apply (xorshift_eq_0 z1 30); lia.
Qed.

(** Only one residue modulo 2^64 is sent to zero, so of two consecutive
    indices at most one is. *)
Lemma zero_at_next (seed i : Z) :
  Splitmix64 (wrap64 (wrap64 seed + wrap64 i)) = 0 ->
  (zero_at seed (i + 1) < zero_at seed i)%nat.
Proof.
  intros H0. unfold zero_at. rewrite H0. simpl.
  destruct (Z.eqb_spec (Splitmix64 (wrap64 (wrap64 seed + wrap64 (i + 1)))) 0)
    as [H1 | _]; [exfalso | lia].
  apply Splitmix64_eq_0 in H0, H1. unfold wrap64 in H0, H1.
  change (2 ^ 64) with 18446744073709551616 in H0, H1.
  Z.div_mod_to_equations. lia.
Qed.

(* ===================================================================== *)
(** ** The methods of the Xoshiro256** core                              *)
(* ===================================================================== *)

Module Xoshiro256ss.

(** [func (r *UnsafeXoshiro256ssRNG) Uint64() uint64], statement by statement. *)
Definition Uint64 (r : UnsafeXoshiro256ssRNG) : Z * UnsafeXoshiro256ssRNG :=
  let result := wrap64 (rol64 (wrap64 (s1 r * 5)) 7 * 9) in
  let t := wrap64 (Z.shiftl (s1 r) 17) in
  let r := set_s2 (Z.lxor (s2 r) (s0 r)) r in
  let r := set_s3 (Z.lxor (s3 r) (s1 r)) r in
  let r := set_s1 (Z.lxor (s1 r) (s2 r)) r in
  let r := set_s0 (Z.lxor (s0 r) (s3 r)) r in
  let r := set_s2 (Z.lxor (s2 r) t) r in
  let r := set_s3 (rol64 (s3 r) 45) r in
  (result, r).

#[local] Opaque Splitmix64 wrap64 Z.add.

(** One loop of [Seed],
    [for r.sK = 0; r.sK == 0; i++ { r.sK = Splitmix64(uint64(seed) + uint64(i)) }]:
    the body runs at least once (the word starts at 0), [i++] follows every
    run of the body, and the loop ends on the first non-zero word.  Returns
    the word and the counter.  The counter is an [int] that [Seed] never
    takes past 5 (lemma [Seed_counter]), so its increment is written
    without wrap-around. *)
Equations? seed_word (seed i : Z) : Z * Z by wf (zero_at seed i) lt :=
seed_word seed i with inspect (Splitmix64 (wrap64 (wrap64 seed + wrap64 i)) =? 0) => {
  | exist _ true Hz => seed_word seed (i + 1)
  | exist _ false _ => (Splitmix64 (wrap64 (wrap64 seed + wrap64 i)), i + 1) }.
Proof.
  apply zero_at_next. apply Z.eqb_eq. exact Hz.
Qed.

#[local] Transparent Splitmix64 wrap64 Z.add.

(** [func (r *UnsafeXoshiro256ssRNG) Seed(seed int64)]: four loops sharing
    the counter [i]. *)
Definition Seed (r : UnsafeXoshiro256ssRNG) (seed : Z) : UnsafeXoshiro256ssRNG :=
  let i := 0 in
  let '(w, i) := seed_word seed i in
  let r := set_s0 w r in
  let '(w, i) := seed_word seed i in
  let r := set_s1 w r in
  let '(w, i) := seed_word seed i in
  let r := set_s2 w r in
  let '(w, i) := seed_word seed i in
  let r := set_s3 w r in
  r.

End Xoshiro256ss.


(** [func NewUnsafeXoshiro256ssRNG(seed int64) *UnsafeXoshiro256ssRNG]:
    [&UnsafeXoshiro256ssRNG{}] is the all-zero struct. *)
Definition NewUnsafeXoshiro256ssRNG (seed : Z) : UnsafeXoshiro256ssRNG :=
  Xoshiro256ss.Seed zero_state seed.

Lemma Xoshiro256ss_Uint64_range (r : UnsafeXoshiro256ssRNG) :
  is_uint64 (fst (Xoshiro256ss.Uint64 r)).
Proof. apply wrap64_range. Qed.

(** [*UnsafeXoshiro256ssRNG] implements [UnsafeRNG]. *)
#[export] Instance xoshiro_rng : UnsafeRNG UnsafeXoshiro256ssRNG :=
  {| Uint64 := Xoshiro256ss.Uint64; Uint64_range := Xoshiro256ss_Uint64_range |}.

(* ===================================================================== *)
(** ** The byte-fill routine                                              *)
(* ===================================================================== *)

(** [len(bytes)], an [int]. *)
Definition len (bytes : list Z) : Z := Z.of_nat (length bytes).

(** [bytes[i] = v]: an index outside the slice panics. *)
Definition store (bytes : list Z) (i v : Z) : result (list Z) :=
  if (0 <=? i) && (i <? len bytes)
  then Ok (<[Z.to_nat i := v]> bytes)
  else Panic "index out of range".

(** The eight assignments of the body of the first loop of [Bytes]. *)
Definition store_chunk (bytes : list Z) (i x : Z) : result (list Z) :=
  bytes ← store bytes i (byte x);
  bytes ← store bytes (i + 1) (byte (Z.shiftr x 8));
  bytes ← store bytes (i + 2) (byte (Z.shiftr x 16));
  bytes ← store bytes (i + 3) (byte (Z.shiftr x 24));
  bytes ← store bytes (i + 4) (byte (Z.shiftr x 32));
  bytes ← store bytes (i + 5) (byte (Z.shiftr x 40));
  bytes ← store bytes (i + 6) (byte (Z.shiftr x 48));
  bytes ← store bytes (i + 7) (byte (Z.shiftr x 56));
  mret bytes.

Lemma store_Ok (bytes bytes' : list Z) (i v : Z) :
  store bytes i v = Ok bytes' ->
  0 <= i < len bytes /\ bytes' = <[Z.to_nat i := v]> bytes /\ len bytes' = len bytes.
Proof.
  unfold store, len. intros Hs.
  destruct (0 <=? i) eqn:E0; destruct (i <? Z.of_nat (length bytes)) eqn:E1;
    simpl in Hs; try discriminate.
  apply Z.leb_le in E0. apply Z.ltb_lt in E1.
  inversion Hs; subst. rewrite length_insert. auto with zarith.
Qed.

Lemma store_chunk_Ok (bytes bytes' : list Z) (i x : Z) :
  store_chunk bytes i x = Ok bytes' ->
  0 <= i /\ i + 7 < len bytes /\ len bytes' = len bytes.
Proof.
  unfold store_chunk. intros Hs.
  repeat match type of Hs with
  | (mbind _ (store ?b ?j ?v) = _) =>
      let E := fresh "E" in
      destruct (store b j v) as [? | ?] eqn:E; simpl in Hs; [| discriminate];
      apply store_Ok in E; destruct E as (? & _ & ?)
  end.
  inversion Hs; subst. lia.
Qed.

#[local] Opaque store_chunk store byte Z.add Z.sub Z.shiftr.

(** The first loop of [Bytes],
    [for { if i == iMax { break }; x := r.Uint64(); bytes[i] = byte(x); ...; i += 8 }].
    It ends because a chunk that does not fit in the slice panics. *)
Equations? fill_chunks {G : Type} `{UnsafeRNG G} (r : G) (bytes : list Z)
    (i iMax : Z) : result (G * list Z * Z)
    by wf (Z.to_nat (len bytes - i)) lt :=
fill_chunks r bytes i iMax with inspect (i =? iMax) => {
  | exist _ true _ => Ok (r, bytes, i)
  | exist _ false _ with inspect (store_chunk bytes i (fst (Uint64 r))) => {
    | exist _ (Ok bytes') Hs => fill_chunks (snd (Uint64 r)) bytes' (i + 8) iMax
    | exist _ (Panic msg) _ => Panic msg } }.
Proof.
  apply store_chunk_Ok in Hs. lia.
Qed.

(** The second loop of [Bytes],
    [for { if i >= n { break }; bytes[i] = byte(x); x >>= 8; i += 1 }]. *)
Equations? fill_tail (bytes : list Z) (x i n : Z) : result (list Z)
    by wf (Z.to_nat (n - i)) lt :=
fill_tail bytes x i n with inspect (i >=? n) => {
  | exist _ true _ => Ok bytes
  | exist _ false Hlt with store bytes i (byte x) => {
    | Ok bytes' => fill_tail bytes' (Z.shiftr x 8) (i + 1) n
    | Panic msg => Panic msg } }.
Proof.
  lia.
Qed.

#[local] Transparent store_chunk store byte Z.add Z.sub Z.shiftr.

(** [func Bytes(r UnsafeRNG, bytes []byte) []byte].  The slice is filled in
    place and returned; the generator behind [r] is returned next to it.
    Go's [%] on [int] truncates, hence [Z.rem]. *)
Definition Bytes {G : Type} `{UnsafeRNG G} (r : G) (bytes : list Z)
  : result (list Z * G) :=
  let n := len bytes in
  let i := 0 in
  let iMax := n - Z.rem n 8 in
  '(r, bytes, i) ← fill_chunks r bytes i iMax;
  let '(x, r) := Uint64 r in
  bytes ← fill_tail bytes x i n;
  mret (bytes, r).

(** [make([]byte, n)]: a negative length panics. *)
Definition make_bytes (n : Z) : result (list Z) :=
  if n <? 0 then Panic "makeslice: len out of range"
  else Ok (replicate (Z.to_nat n) 0).

(* ===================================================================== *)
(** ** The pool-backed wrapper                                            *)
(* ===================================================================== *)

(** [type ThreadsafePoolRNG struct { rngPool sync.Pool }].  The pool holds
    the generators that were put back; [source] is the state read by the
    pool's [New] function (the host's random source behind the factory). *)
Record ThreadsafePoolRNG (G F : Type) : Type := mkPool {
  rngPool : list G;
  source : F
}.
Arguments mkPool {G F} rngPool source.
Arguments rngPool {G F} t.
Arguments source {G F} t.

Module ThreadsafePool.
Section Methods.

Context {G : Type} `{UnsafeRNG G}.
Context {F : Type}.

(** The factory given to [NewSyncPoolRNG], reading the host's source. *)
Variable New : F -> G * F.

(** [s.rngPool.Get()]: [sync.Pool] hands out any pooled item, or calls
    [New]; which one is not the caller's choice.  [pick] is that choice:
    the pooled item at position [pick] if there is one, a new generator
    otherwise. *)
Definition Get (pick : nat) (s : ThreadsafePoolRNG G F)
  : G * ThreadsafePoolRNG G F :=
  match rngPool s !! pick with
  | Some r => (r, mkPool (delete pick (rngPool s)) (source s))
  | None => let '(r, f) := New (source s) in (r, mkPool (rngPool s) f)
  end.

(** [s.rngPool.Put(r)]. *)
Definition Put (r : G) (s : ThreadsafePoolRNG G F) : ThreadsafePoolRNG G F :=
  mkPool (r :: rngPool s) (source s).

(** [func (s *ThreadsafePoolRNG) Uint64() uint64]. *)
Definition Uint64 (pick : nat) (s : ThreadsafePoolRNG G F)
  : Z * ThreadsafePoolRNG G F :=
  let '(r, s) := Get pick s in
  let '(x, r) := Uint64 r in
  let s := Put r s in
  (x, s).

(** [func (s *ThreadsafePoolRNG) Int63() int64]. *)
Definition Int63 (pick : nat) (s : ThreadsafePoolRNG G F)
  : Z * ThreadsafePoolRNG G F :=
  let '(x, s) := Uint64 pick s in
  (int64 (Z.land 0x7FFFFFFFFFFFFFFF x), s).

(** [func (s *ThreadsafePoolRNG) Seed(seed int64)]. *)
Definition Seed (s : ThreadsafePoolRNG G F) (seed : Z)
  : result (ThreadsafePoolRNG G F) :=
  Panic "Cant seed a ThreadsafePoolRNG".

(** [func (s *ThreadsafePoolRNG) Read(p []byte) []byte] (declared after
    the method [Bytes] in the source; both call the package-level [Bytes]). *)
Definition Read (pick : nat) (s : ThreadsafePoolRNG G F) (p : list Z)
  : result (list Z * ThreadsafePoolRNG G F) :=
  let '(r, s) := Get pick s in
  '(p, r) ← Bytes r p;
  let s := Put r s in
  mret (p, s).

(** [func (s *ThreadsafePoolRNG) Bytes(n int) []byte]. *)
Definition Bytes (pick : nat) (s : ThreadsafePoolRNG G F) (n : Z)
  : result (list Z * ThreadsafePoolRNG G F) :=
  let '(r, s) := Get pick s in
  bytes ← make_bytes n;
  '(result, r) ← Bytes r bytes;
  let s := Put r s in
  mret (result, s).

(** [func (s *ThreadsafePoolRNG) Uint32n(maxN int) uint32]. *)
Definition Uint32n (pick : nat) (s : ThreadsafePoolRNG G F) (maxN : Z)
  : Z * ThreadsafePoolRNG G F :=
  let '(x, s) := Uint64 pick s in
  let x := Z.land x 0x00000000FFFFFFFF in
  (wrap32 (Z.shiftr (wrap64 (x * wrap64 maxN)) 32), s).

End Methods.
End ThreadsafePool.

(** [func NewSyncPoolRNG(fn func() UnsafeRNG) *ThreadsafePoolRNG]: the pool
    starts empty; [src] is the state the factory [fn] will read. *)
Definition NewSyncPoolRNG {G F : Type} (src : F) : ThreadsafePoolRNG G F :=
  mkPool [] src.

(** The factory of [NewSyncPoolXoshiro256ssRNG],
    [func() UnsafeRNG { return NewUnsafeXoshiro256ssRNG(int64(rand.Uint64())) }].
    The words [math/rand] is going to return are the stream [src]. *)
Definition xoshiro_factory (src : nat -> Z)
  : UnsafeXoshiro256ssRNG * (nat -> Z) :=
  (NewUnsafeXoshiro256ssRNG (int64 (src O)), fun k => src (S k)).

(** [func NewSyncPoolXoshiro256ssRNG() *ThreadsafePoolRNG]: an empty pool
    whose generators are made by [xoshiro_factory] from the stream [src]. *)
Definition NewSyncPoolXoshiro256ssRNG (src : nat -> Z)
  : ThreadsafePoolRNG UnsafeXoshiro256ssRNG (nat -> Z) :=
  NewSyncPoolRNG src.

(* ===================================================================== *)
(** ** The generators of [benchRNG_test.go]                               *)
(* ===================================================================== *)

Module Pcg32.

(** [type UnsafePcg32RNG struct { state uint64; inc uint64 }]. *)
Record UnsafePcg32RNG : Type := mk {
  state : Z;
  inc : Z
}.

(** [func (r *UnsafePcg32RNG) Uint32() uint32].  Every intermediate value
    is a [uint64]; [-rot] is the [uint64] negation. *)
Definition Uint32 (r : UnsafePcg32RNG) : Z * UnsafePcg32RNG :=
  let oldstate := state r in
  let r := mk (wrap64 (wrap64 (oldstate * 6364136223846793005) + inc r)) (inc r) in
  let xorshifted := Z.shiftr (Z.lxor (Z.shiftr oldstate 18) oldstate) 27 in
  let rot := Z.shiftr oldstate 59 in
  let result :=
    Z.lor (Z.shiftr xorshifted rot)
          (wrap64 (Z.shiftl xorshifted (Z.land (wrap64 (- rot)) 31))) in
  (wrap32 result, r).

(** [func (r *UnsafePcg32RNG) SetState(initstate uint64, initseq uint64)]. *)
Definition SetState (r : UnsafePcg32RNG) (initstate initseq : Z) : UnsafePcg32RNG :=
  let r := mk 0 (inc r) in
  let r := mk (state r) (Z.lor (wrap64 (Z.shiftl initseq 1)) 1) in
  let r := snd (Uint32 r) in
  let r := mk (wrap64 (state r + initstate)) (inc r) in
  let r := snd (Uint32 r) in
  r.

(** [func (r *UnsafePcg32RNG) Seed(seed int64)]. *)
Definition Seed (r : UnsafePcg32RNG) (seed : Z) : UnsafePcg32RNG :=
  SetState r
    (Splitmix64 (wrap64 (wrap64 seed + wrap64 0)))
    (Splitmix64 (wrap64 (wrap64 seed + wrap64 1))).

(** [func NewUnsafePcg32RNG(seed int64) *UnsafePcg32RNG]. *)
Definition NewUnsafePcg32RNG (seed : Z) : UnsafePcg32RNG :=
  Seed (mk 0 0) seed.

(** The generator after [k] calls of [Uint32]. *)
Fixpoint after (k : nat) (r : UnsafePcg32RNG) : UnsafePcg32RNG :=
  match k with
  | O => r
  | S k' => after k' (snd (Uint32 r))
  end.

End Pcg32.

Module Pcg32x2.

(** [type UnsafePcg32x2RNG struct { gen0 UnsafePcg32RNG; gen1 UnsafePcg32RNG }]. *)
Record UnsafePcg32x2RNG : Type := mk {
  gen0 : Pcg32.UnsafePcg32RNG;
  gen1 : Pcg32.UnsafePcg32RNG
}.

(** [func (r *UnsafePcg32x2RNG) SetState(seed1, seq1, seed2, seq2 uint64)]:
    [^uint64(0) >> 1] is the mask of the low 63 bits, [^seq2] the [uint64]
    complement. *)
Definition SetState (r : UnsafePcg32x2RNG) (seed1 seq1 seed2 seq2 : Z)
  : UnsafePcg32x2RNG :=
  let mask := Z.shiftr (wrap64 (Z.lnot 0)) 1 in
  let seq2 :=
    if Z.land seq1 mask =? Z.land seq2 mask then wrap64 (Z.lnot seq2) else seq2 in
  let r := mk (Pcg32.SetState (gen0 r) seed1 seq1) (gen1 r) in
  let r := mk (gen0 r) (Pcg32.SetState (gen1 r) seed2 seq2) in
  r.

(** [func (r *UnsafePcg32x2RNG) Seed(seed int64)]. *)
Definition Seed (r : UnsafePcg32x2RNG) (seed : Z) : UnsafePcg32x2RNG :=
  SetState r
    (Splitmix64 (wrap64 (wrap64 seed + wrap64 0)))
    (Splitmix64 (wrap64 (wrap64 seed + wrap64 1)))
    (Splitmix64 (wrap64 (wrap64 seed + wrap64 2)))
    (Splitmix64 (wrap64 (wrap64 seed + wrap64 3))).

(** [func (r *UnsafePcg32x2RNG) Uint64() uint64]: the operands of [|] are
    evaluated left to right. *)
Definition Uint64 (r : UnsafePcg32x2RNG) : Z * UnsafePcg32x2RNG :=
  let '(hi, g0) := Pcg32.Uint32 (gen0 r) in
  let r := mk g0 (gen1 r) in
  let '(lo, g1) := Pcg32.Uint32 (gen1 r) in
  let r := mk (gen0 r) g1 in
  (Z.lor (wrap64 (Z.shiftl (wrap64 hi) 32)) (wrap64 lo), r).

(** [func NewUnsafePcg32x2RNG(seed int64) *UnsafePcg32x2RNG]. *)
Definition NewUnsafePcg32x2RNG (seed : Z) : UnsafePcg32x2RNG :=
  Seed (mk (Pcg32.mk 0 0) (Pcg32.mk 0 0)) seed.

End Pcg32x2.

(** [func rot64(x uint64, k uint64) uint64]. *)
Definition rot64 (x k : Z) : Z :=
  Z.lor (wrap64 (Z.shiftl x k)) (Z.shiftr x (wrap64 (64 - k))).

Module Jsf64.

(** [type UnsafeJsf64RNG struct { a, b, c, d uint64 }]. *)
Record UnsafeJsf64RNG : Type := mk {
  a : Z;
  b : Z;
  c : Z;
  d : Z
}.

(** [func (x *UnsafeJsf64RNG) Uint64() uint64], assignment by assignment. *)
Definition Uint64 (x : UnsafeJsf64RNG) : Z * UnsafeJsf64RNG :=
  let e := wrap64 (a x - rot64 (b x) 7) in
  let x := mk (Z.lxor (b x) (rot64 (c x) 13)) (b x) (c x) (d x) in
  let x := mk (a x) (wrap64 (c x + rot64 (d x) 37)) (c x) (d x) in
  let x := mk (a x) (b x) (wrap64 (d x + e)) (d x) in
  let x := mk (a x) (b x) (c x) (wrap64 (e + a x)) in
  (d x, x).

(** [func (x *UnsafeJsf64RNG) Seed(seed int64)]: the loop
    [for i := 0; i < 20; i++ { x.Uint64() }] runs its body twenty times. *)
Definition Seed (x : UnsafeJsf64RNG) (seed : Z) : UnsafeJsf64RNG :=
  let x := mk 0xf1ea5eed (b x) (c x) (d x) in
  let x := mk (a x) (wrap64 seed) (c x) (d x) in
  let x := mk (a x) (b x) (wrap64 seed) (d x) in
  let x := mk (a x) (b x) (c x) (wrap64 seed) in
  Nat.iter 20 (fun x => snd (Uint64 x)) x.

(** [func NewUnsafeJsf64RNG(seed int64) *UnsafeJsf64RNG]. *)
Definition NewUnsafeJsf64RNG (seed : Z) : UnsafeJsf64RNG :=
  Seed (mk 0 0 0 0) seed.

(** Every field holds a [uint64]. *)
Definition wf (x : UnsafeJsf64RNG) : Prop :=
  is_uint64 (a x) /\ is_uint64 (b x) /\ is_uint64 (c x) /\ is_uint64 (d x).

End Jsf64.

(* ===================================================================== *)
(** ** Reference definitions used to state the properties                 *)
(* ===================================================================== *)

(** The number whose bit [i], for [i < n], is [f i], and whose other bits
    are clear. *)
Fixpoint of_bits (f : Z -> bool) (n : nat) : Z :=
  match n with
  | O => 0
  | S m =>
      let z := of_bits f m in
      if f (Z.of_nat m) then Z.setbit z (Z.of_nat m) else z
  end.

(** The 64-bit circular left shift: bit [i] of the result is bit
    [i - k] of [x], the position taken modulo 64. *)
Definition rotate_left (x k : Z) : Z :=
  of_bits (fun i => Z.testbit x ((i - k) mod 64)) 64.

(** The output of one draw as the xoshiro256** scrambler defines it. *)
Definition starstar_output (r : UnsafeXoshiro256ssRNG) : Z :=
  wrap64 (rotate_left (wrap64 (s1 r * 5)) 7 * 9).

(** The xoshiro256 state transition, each assignment reading the words as
    the assignments before it left them. *)
Definition starstar_transition (r : UnsafeXoshiro256ssRNG) : UnsafeXoshiro256ssRNG :=
  let t := wrap64 (Z.shiftl (s1 r) 17) in
  let s2' := Z.lxor (s2 r) (s0 r) in
  let s3' := Z.lxor (s3 r) (s1 r) in
  let s1' := Z.lxor (s1 r) s2' in
  let s0' := Z.lxor (s0 r) s3' in
  let s2'' := Z.lxor s2' t in
  let s3'' := rotate_left s3' 45 in
  mkXoshiro s0' s1' s2'' s3''.

(** The state of the reference vector of the repository's test. *)
Definition reference_state : UnsafeXoshiro256ssRNG :=
  mkXoshiro 0x01d353e5f3993bb0 0x7b9c0df6cb193b20
            0xfdfcaa91110765b6 0xd2db341f10bb232e.

(** [Splitmix64(uint64(seed) + uint64(k))], the word [Seed] computes when
    its counter is [k]. *)
Definition expand (seed k : Z) : Z :=
  Splitmix64 (wrap64 (wrap64 seed + wrap64 k)).

(** The counter value used for word number [k] when the counter value [j]
    is passed over. *)
Definition skipping (j k : Z) : Z := if k <? j then k else k + 1.

(** [ceil(n/8)] for [n >= 0]. *)
Definition ceil_div8 (n : Z) : Z := (n + 7) / 8.

(** C2 as the spec states it, for the generator [g] and the slice [bytes]:
    [Bytes] returns a slice as long as [bytes] after exactly [ceil(n/8)]
    calls of [Uint64]. *)
Definition draws_as_stated {G : Type} `{UnsafeRNG G} (g : G) (bytes : list Z) : Prop :=
  exists bytes' g',
    Bytes (g, 0%nat) bytes = Ok (bytes', g') /\
    length bytes' = length bytes /\
    Z.of_nat (calls g') = ceil_div8 (len bytes).

(** Byte number [j] of [x], least significant first. *)
Definition byte_of (x j : Z) : Z := byte (Z.shiftr x (8 * j)).

(** A generator that returns the same word at every call. *)
Definition constant_Uint64 (x : Z) (g : unit) : Z * unit := (wrap64 x, g).

Lemma constant_Uint64_range (x : Z) (g : unit) :
  is_uint64 (fst (constant_Uint64 x g)).
Proof. apply Z.mod_pos_bound. lia. Qed.

Definition constant_rng (x : Z) : UnsafeRNG unit :=
  {| Uint64 := constant_Uint64 x; Uint64_range := constant_Uint64_range x |}.

(** The [uint64] a slice of bytes encodes, least significant byte first
    (what [binary.Read] decodes on a little-endian host). *)
Fixpoint le_uint64 (bs : list Z) : Z :=
  match bs with
  | [] => 0
  | b :: rest => b + 256 * le_uint64 rest
  end.

(** [k] successive calls of the wrapper's [Uint64] from one goroutine, the
    pool handing back each time the generator put last ([pick = 0]): the
    words returned, in order, and the wrapper afterwards. *)
Fixpoint pool_draws {G : Type} `{UnsafeRNG G} {F : Type} (New : F -> G * F)
    (k : nat) (s : ThreadsafePoolRNG G F) : list Z * ThreadsafePoolRNG G F :=
  match k with
  | O => ([], s)
  | S k' =>
      let '(x, s) := ThreadsafePool.Uint64 New 0 s in
      let '(xs, s) := pool_draws New k' s in
      (x :: xs, s)
  end.

(** [ceil(a / b)] for [b > 0]. *)
Definition ceil_div (a b : Z) : Z := (a + b - 1) / b.

(** Every field of a PCG32 generator holds a [uint64]. *)
Definition wf_pcg32 (r : Pcg32.UnsafePcg32RNG) : Prop :=
  is_uint64 (Pcg32.state r) /\ is_uint64 (Pcg32.inc r).

(* ===================================================================== *)
(** ** The loops, unfolded once                                           *)
(* ===================================================================== *)

Lemma seed_word_eq (seed i : Z) :
  Xoshiro256ss.seed_word seed i =
  if expand seed i =? 0 then Xoshiro256ss.seed_word seed (i + 1)
  else (expand seed i, i + 1).
Proof.
  rewrite Xoshiro256ss.seed_word_equation_1. unfold expand.
  enough (forall b (e : (Splitmix64 (wrap64 (wrap64 seed + wrap64 i)) =? 0) = b),
    Xoshiro256ss.seed_word_unfold_clause_1 seed i (exist _ b e) =
    if b then Xoshiro256ss.seed_word seed (i + 1)
    else (Splitmix64 (wrap64 (wrap64 seed + wrap64 i)), i + 1)) as X by apply X.
  intros [|] e; reflexivity.
Qed.

Lemma fill_chunks_eq {G : Type} `{UnsafeRNG G} (r : G) (bytes : list Z) (i iMax : Z) :
  fill_chunks r bytes i iMax =
  if i =? iMax then Ok (r, bytes, i)
  else match store_chunk bytes i (fst (Uint64 r)) with
       | Ok bytes' => fill_chunks (snd (Uint64 r)) bytes' (i + 8) iMax
       | Panic msg => Panic msg
       end.
Proof.
  rewrite fill_chunks_equation_1.
  enough (forall b (e : (i =? iMax) = b),
    fill_chunks_unfold_clause_1 G _ r bytes i iMax (exist _ b e) =
    if b then Ok (r, bytes, i)
    else match store_chunk bytes i (fst (Uint64 r)) with
         | Ok bytes' => fill_chunks (snd (Uint64 r)) bytes' (i + 8) iMax
         | Panic msg => Panic msg
         end) as X by apply X.
  intros [|] e; simpl; [reflexivity|].
  enough (forall c (e' : store_chunk bytes i (fst (Uint64 r)) = c),
    fill_chunks_unfold_clause_1_clause_2 G _ r bytes i (exist _ c e') iMax e =
    match c with
    | Ok bytes' => fill_chunks (snd (Uint64 r)) bytes' (i + 8) iMax
    | Panic msg => Panic msg
    end) as X by apply X.
  intros [b|m] e'; reflexivity.
Qed.

Lemma fill_tail_eq (bytes : list Z) (x i n : Z) :
  fill_tail bytes x i n =
  if i >=? n then Ok bytes
  else match store bytes i (byte x) with
       | Ok bytes' => fill_tail bytes' (Z.shiftr x 8) (i + 1) n
       | Panic msg => Panic msg
       end.
Proof.
  rewrite fill_tail_equation_1.
  enough (forall b (e : (i >=? n) = b),
    fill_tail_unfold_clause_1 bytes x i n (exist _ b e) =
    if b then Ok bytes
    else match store bytes i (byte x) with
         | Ok bytes' => fill_tail bytes' (Z.shiftr x 8) (i + 1) n
         | Panic msg => Panic msg
         end) as X by apply X.
  intros [|] e; simpl; [reflexivity|].
  destruct (store bytes i (byte x)); reflexivity.
Qed.

(* ===================================================================== *)
(** ** [rol64] is the circular shift                                      *)
(* ===================================================================== *)

Lemma of_bits_spec (f : Z -> bool) (n : nat) (i : Z) :
  0 <= i -> Z.testbit (of_bits f n) i = (i <? Z.of_nat n) && f i.
Proof.
  intros Hi. induction n as [| m IH].
  - cbn [of_bits]. rewrite Z.bits_0. destruct (Z.ltb_spec i (Z.of_nat 0)); [lia | reflexivity].
  - cbn [of_bits]. cbv zeta.
    destruct (f (Z.of_nat m)) eqn:Ef.
    + rewrite Z.setbit_eqb by lia. rewrite IH.
      destruct (Z.eqb_spec (Z.of_nat m) i) as [<- | NE].
      * rewrite Ef. destruct (Z.ltb_spec (Z.of_nat m) (Z.of_nat (S m))); [reflexivity | lia].
      * destruct (Z.ltb_spec i (Z.of_nat m)), (Z.ltb_spec i (Z.of_nat (S m)));
          try reflexivity; lia.
    + rewrite IH.
      destruct (Z.ltb_spec i (Z.of_nat m)), (Z.ltb_spec i (Z.of_nat (S m)));
        try reflexivity; try lia.
      assert (i = Z.of_nat m) as -> by lia. rewrite Ef. reflexivity.
Qed.

Lemma testbit_uint64_high (x i : Z) : is_uint64 x -> 64 <= i -> Z.testbit x i = false.
Proof.
  intros Hx Hi. rewrite <- (wrap64_small x Hx). unfold wrap64.
  apply Z.mod_pow2_bits_high. lia.
Qed.

(** For a shift count strictly between 0 and 64, the two shifts of [rol64]
    put every bit of [x] where the circular shift puts it. *)
Lemma rol64_rotate_left (x k : Z) :
  is_uint64 x -> 0 < k < 64 -> rol64 x k = rotate_left x k.
Proof.
  intros Hx Hk. unfold rol64, rotate_left.
  assert (wrap64 (64 - k) = 64 - k) as ->.
  { apply wrap64_small. unfold is_uint64. lia. }
  apply Z.bits_inj'. intros i Hi.
  rewrite of_bits_spec by lia. rewrite Z.lor_spec.
  rewrite Z.shiftr_spec by lia. unfold wrap64.
  change (Z.of_nat 64) with 64.
  destruct (Z.ltb_spec i 64) as [Hlt | Hge].
  - rewrite Z.mod_pow2_bits_low by lia. rewrite Z.shiftl_spec by lia.
    destruct (Z.lt_ge_cases i k) as [Hik | Hik].
    + rewrite (Z.testbit_neg_r x (i - k)) by lia.
      replace ((i - k) mod 64) with (i + (64 - k)).
      * reflexivity.
      * apply (Z.mod_unique_pos _ _ (-1)); lia.
    + rewrite (testbit_uint64_high x (i + (64 - k))) by (auto; lia).
      rewrite Z.mod_small by lia. rewrite orb_false_r. reflexivity.
  - rewrite Z.mod_pow2_bits_high by lia.
    rewrite (testbit_uint64_high x (i + (64 - k))) by (auto; lia).
    reflexivity.
Qed.

Lemma rol64_uint64 (x k : Z) : is_uint64 x -> is_uint64 (rol64 x k).
Proof.
  intros Hx. unfold rol64. apply lor_uint64.
  - apply wrap64_range.
  - apply shiftr_uint64; [exact Hx | apply wrap64_range].
Qed.

(* ===================================================================== *)
(** ** The functions on concrete inputs                                   *)
(* ===================================================================== *)

Example Splitmix64_at_0 : Splitmix64 0 = 0xE220A8397B1DCDAF.
Proof. vm_compute. reflexivity. Qed.

Example Splitmix64_zero : Splitmix64 0x61C8864680B583EB = 0.
Proof. vm_compute. reflexivity. Qed.

Example rol64_wraps_top_bit : rol64 0x8000000000000001 1 = 3.
Proof. vm_compute. reflexivity. Qed.

Example Seed_0 :
  NewUnsafeXoshiro256ssRNG 0 =
  mkXoshiro 0xE220A8397B1DCDAF 0x910A2DEC89025CC1
            0x975835DE1C9756CE 0x1D0B14E4DB018FED.
Proof. vm_compute. reflexivity. Qed.

(** Ten bytes from a generator that always returns [0x0807060504030201]:
    two draws are used, and two bytes of the second. *)
Example Bytes_constant :
  @Bytes unit (constant_rng 0x0807060504030201) tt (replicate 10 0) =
  Ok ([1; 2; 3; 4; 5; 6; 7; 8; 1; 2], tt).
Proof. vm_compute. reflexivity. Qed.

(** Reading eight bytes through the wrapper gives the first draw of the
    pooled generator, least significant byte first, and puts the generator
    back. *)
Example Read_8 :
  ThreadsafePool.Read xoshiro_factory 0
    (mkPool [reference_state] (fun _ => 0)) (replicate 8 0) =
  Ok ([0xdd; 0x51; 0xb2; 0xb7; 0xd9; 0x30; 0x3a; 0x37],
      mkPool [advance 2 reference_state] (fun _ => 0)).
Proof. vm_compute. reflexivity. Qed.

(** The first call on a new wrapper makes a generator from the first word
    of the host's stream, draws from it and pools it. *)
Example first_Uint64_of_new_pool :
  ThreadsafePool.Uint64 xoshiro_factory 0 (NewSyncPoolXoshiro256ssRNG (fun _ => 0)) =
  (nth_draw (NewUnsafeXoshiro256ssRNG 0) 0,
   mkPool [advance 1 (NewUnsafeXoshiro256ssRNG 0)] (fun _ => 0)).
Proof. vm_compute. reflexivity. Qed.

(** A negative length panics in [make] before any byte is drawn. *)
Example Bytes_negative_length :
  ThreadsafePool.Bytes xoshiro_factory 0
    (mkPool [reference_state] (fun _ => 0)) (-1) =
  Panic "makeslice: len out of range".
Proof. vm_compute. reflexivity. Qed.

(* ===================================================================== *)
(** ** One draw of the Xoshiro256** core                                  *)
(* ===================================================================== *)

(** C1, as the spec states it, fails: from the reference state the first
    two draws are not [0xdd51b2b7d9303a37] and [0xebd96366a670fd50]. *)
Lemma stated_draws_refuted :
  ~ (nth_draw reference_state 0 = 0xdd51b2b7d9303a37 /\
     nth_draw reference_state 1 = 0xebd96366a670fd50).
Proof. vm_compute. intros [H _]. discriminate H. Qed.

(** C1, amended: from the reference state the first draw is
    [0x373a30d9b7b251dd] and the second [0x50fd70a66663d9eb]; these are the
    spec's two literals with their eight bytes reversed, so the sixteen bytes
    [Bytes] writes from that state read dd 51 b2 b7 d9 30 3a 37 eb d9 63 66
    a6 70 fd 50. *)
Theorem reference_draws :
  nth_draw reference_state 0 = 0x373a30d9b7b251dd /\
  nth_draw reference_state 1 = 0x50fd70a66663d9eb /\
  Bytes reference_state (replicate 16 0) =
    Ok ([0xdd; 0x51; 0xb2; 0xb7; 0xd9; 0x30; 0x3a; 0x37;
         0xeb; 0xd9; 0x63; 0x66; 0xa6; 0x70; 0xfd; 0x50],
        advance 3 reference_state).
Proof. vm_compute. repeat split; reflexivity. Qed.

(** C6: on a state of four [uint64] words, [Uint64] returns
    [rotate_left(s1 * 5, 7) * 9] computed modulo 2^64 on the state it was
    called on, and leaves the state the xoshiro transition produces. *)
Theorem Uint64_is_starstar (r : UnsafeXoshiro256ssRNG) :
  wf_state r ->
  Xoshiro256ss.Uint64 r = (starstar_output r, starstar_transition r).
Proof.
  intros (H0 & H1 & H2 & H3).
  unfold Xoshiro256ss.Uint64, starstar_output, starstar_transition.
  destruct r as [a b c d].
  cbn [s0 s1 s2 s3 set_s0 set_s1 set_s2 set_s3] in *.
  rewrite (rol64_rotate_left (wrap64 (b * 5)) 7) by (auto using wrap64_range; lia).
  rewrite (rol64_rotate_left (Z.lxor d b) 45) by (auto using lxor_uint64; lia).
  reflexivity.
Qed.

Lemma Uint64_is_starstar_witness :
  wf_state reference_state /\
  Xoshiro256ss.Uint64 reference_state =
    (starstar_output reference_state, starstar_transition reference_state).
Proof.
  assert (wf_state reference_state) as Hwf.
  { unfold wf_state, is_uint64, reference_state. cbn [s0 s1 s2 s3]. lia. }
  split; [exact Hwf | apply (Uint64_is_starstar reference_state Hwf)].
Defined.

(* ===================================================================== *)
(** ** Seeding                                                            *)
(* ===================================================================== *)

Lemma Splitmix64_range (x : Z) : is_uint64 (Splitmix64 x).
Proof.
  unfold Splitmix64. cbv zeta. apply lxor_uint64.
  - apply wrap64_range.
  - apply shiftr_uint64; [apply wrap64_range | lia].
Qed.

(** Of two consecutive counter values at most one expands to zero. *)
Lemma expand_next (seed i : Z) : expand seed i = 0 -> expand seed (i + 1) <> 0.
Proof.
  unfold expand. intros H0 H1.
  apply Splitmix64_eq_0 in H0, H1. unfold wrap64 in H0, H1.
  change (2 ^ 64) with 18446744073709551616 in H0, H1.
  Z.div_mod_to_equations. lia.
Qed.

(** No two of the five counter values [Seed] can reach expand to zero. *)
Lemma expand_zero_unique (seed j k : Z) :
  0 <= j <= 4 -> 0 <= k <= 4 -> expand seed j = 0 -> expand seed k = 0 -> j = k.
Proof.
  unfold expand. intros Hj Hk Ej Ek.
  apply Splitmix64_eq_0 in Ej, Ek. unfold wrap64 in Ej, Ek.
  change (2 ^ 64) with 18446744073709551616 in Ej, Ek.
  Z.div_mod_to_equations. lia.
Qed.

(** A seeding loop stops at the first counter value that does not expand
    to zero, which is the one it starts at or the next. *)
Lemma seed_word_cases (seed i : Z) :
  (expand seed i <> 0 /\ Xoshiro256ss.seed_word seed i = (expand seed i, i + 1)) \/
  (expand seed i = 0 /\ expand seed (i + 1) <> 0 /\
   Xoshiro256ss.seed_word seed i = (expand seed (i + 1), i + 2)).
Proof.
  rewrite seed_word_eq.
  destruct (Z.eqb_spec (expand seed i) 0) as [E | NE].
  - right. pose proof (expand_next seed i E) as NE1.
    rewrite seed_word_eq.
    destruct (Z.eqb_spec (expand seed (i + 1)) 0) as [E1 | _]; [contradiction|].
    repeat split; auto. f_equal. lia.
  - left. split; auto.
Qed.

Lemma seed_word_nonzero (seed i : Z) : fst (Xoshiro256ss.seed_word seed i) <> 0.
Proof.
  destruct (seed_word_cases seed i) as [[NE ->] | (_ & NE & ->)]; exact NE.
Qed.

Lemma seed_word_uint64 (seed i : Z) : is_uint64 (fst (Xoshiro256ss.seed_word seed i)).
Proof.
  destruct (seed_word_cases seed i) as [[_ ->] | (_ & _ & ->)];
    apply Splitmix64_range.
Qed.

(** A loop moves the counter by one or two. *)
Lemma seed_word_counter (seed i : Z) :
  i + 1 <= snd (Xoshiro256ss.seed_word seed i) <= i + 2.
Proof.
  destruct (seed_word_cases seed i) as [[_ ->] | (_ & _ & ->)]; cbn [snd]; lia.
Qed.

(** The counter of [Seed] ends at 4 or 5: well inside the range of [int]. *)
Lemma Seed_counter (seed : Z) :
  let i1 := snd (Xoshiro256ss.seed_word seed 0) in
  let i2 := snd (Xoshiro256ss.seed_word seed i1) in
  let i3 := snd (Xoshiro256ss.seed_word seed i2) in
  let i4 := snd (Xoshiro256ss.seed_word seed i3) in
  4 <= i4 <= 5.
Proof.
  cbv zeta.
  assert (forall i, 0 <= i <= 4 ->
            (expand seed i <> 0 /\ snd (Xoshiro256ss.seed_word seed i) = i + 1) \/
            (expand seed i = 0 /\ snd (Xoshiro256ss.seed_word seed i) = i + 2)) as Hstep.
  { intros i _. destruct (seed_word_cases seed i) as [[NE ->] | (E & _ & ->)]; auto. }
  assert (forall j k, expand seed j = 0 -> expand seed k = 0 ->
            0 <= j <= 4 -> 0 <= k <= 4 -> j = k) as Huniq.
  { intros j k Ej Ek Hj Hk. apply (expand_zero_unique seed); assumption. }
  destruct (Hstep 0 ltac:(lia)) as [[_ ->] | [E0 ->]].
  - destruct (Hstep (0 + 1) ltac:(lia)) as [[_ ->] | [E1 ->]].
    + destruct (Hstep (0 + 1 + 1) ltac:(lia)) as [[_ ->] | [E2 ->]].
      * pose proof (seed_word_counter seed (0 + 1 + 1 + 1)). lia.
      * destruct (Hstep (0 + 1 + 1 + 2) ltac:(lia)) as [[_ ->] | [E3 _]]; [lia |].
        pose proof (Huniq _ _ E2 E3 ltac:(lia) ltac:(lia)). lia.
    + destruct (Hstep (0 + 1 + 2) ltac:(lia)) as [[_ ->] | [E2 _]].
      * destruct (Hstep (0 + 1 + 2 + 1) ltac:(lia)) as [[_ ->] | [E3 _]]; [lia |].
        pose proof (Huniq _ _ E1 E3 ltac:(lia) ltac:(lia)). lia.
      * pose proof (Huniq _ _ E1 E2 ltac:(lia) ltac:(lia)). lia.
  - destruct (Hstep (0 + 2) ltac:(lia)) as [[_ ->] | [E1 _]].
    + destruct (Hstep (0 + 2 + 1) ltac:(lia)) as [[_ ->] | [E2 _]].
      * destruct (Hstep (0 + 2 + 1 + 1) ltac:(lia)) as [[_ ->] | [E3 _]]; [lia |].
        pose proof (Huniq _ _ E0 E3 ltac:(lia) ltac:(lia)). lia.
      * pose proof (Huniq _ _ E0 E2 ltac:(lia) ltac:(lia)). lia.
    + pose proof (Huniq _ _ E0 E1 ltac:(lia) ltac:(lia)). lia.
Qed.

(** [Seed] assigns the four words the four loops return, whatever the
    state it is called on. *)
Lemma Seed_words (r : UnsafeXoshiro256ssRNG) (seed : Z) :
  exists i1 i2 i3,
    Xoshiro256ss.Seed r seed =
    mkXoshiro (fst (Xoshiro256ss.seed_word seed 0))
              (fst (Xoshiro256ss.seed_word seed i1))
              (fst (Xoshiro256ss.seed_word seed i2))
              (fst (Xoshiro256ss.seed_word seed i3)).
Proof.
  unfold Xoshiro256ss.Seed. cbv zeta.
  destruct (Xoshiro256ss.seed_word seed 0) as [w0 i1].
  destruct (Xoshiro256ss.seed_word seed i1) as [w1 i2] eqn:E1.
  destruct (Xoshiro256ss.seed_word seed i2) as [w2 i3] eqn:E2.
  destruct (Xoshiro256ss.seed_word seed i3) as [w3 i4] eqn:E3.
  exists i1, i2, i3. rewrite E1, E2, E3. reflexivity.
Qed.

Lemma Seed_wf (r : UnsafeXoshiro256ssRNG) (seed : Z) :
  wf_state (Xoshiro256ss.Seed r seed).
Proof.
  destruct (Seed_words r seed) as (i1 & i2 & i3 & ->).
  split; [| split; [| split]]; apply seed_word_uint64.
Qed.

Lemma Seed_no_zero_word (r : UnsafeXoshiro256ssRNG) (seed : Z) :
  s0 (Xoshiro256ss.Seed r seed) <> 0 /\
  s1 (Xoshiro256ss.Seed r seed) <> 0 /\
  s2 (Xoshiro256ss.Seed r seed) <> 0 /\
  s3 (Xoshiro256ss.Seed r seed) <> 0.
Proof.
  destruct (Seed_words r seed) as (i1 & i2 & i3 & ->).
  cbn [s0 s1 s2 s3]. repeat split; apply seed_word_nonzero.
Qed.

(** C3: for every seed, and whatever the state before, none of the four
    words is zero after [Seed]. *)
Theorem Seed_words_nonzero (r : UnsafeXoshiro256ssRNG) (seed : Z) :
  s0 (Xoshiro256ss.Seed r seed) <> 0 /\
  s1 (Xoshiro256ss.Seed r seed) <> 0 /\
  s2 (Xoshiro256ss.Seed r seed) <> 0 /\
  s3 (Xoshiro256ss.Seed r seed) <> 0.
Proof. exact (Seed_no_zero_word r seed). Qed.

Lemma seed_word_nz (seed i : Z) :
  expand seed i <> 0 -> Xoshiro256ss.seed_word seed i = (expand seed i, i + 1).
Proof.
  intros NE. destruct (seed_word_cases seed i) as [[_ E] | (E & _)];
    [exact E | contradiction].
Qed.

Lemma seed_word_z (seed i : Z) :
  expand seed i = 0 -> Xoshiro256ss.seed_word seed i = (expand seed (i + 1), i + 2).
Proof.
  intros E0. destruct (seed_word_cases seed i) as [[NE _] | (_ & _ & E)];
    [contradiction | exact E].
Qed.

(** Evaluates the closed sums the shared counter goes through. *)
Ltac eval_counter :=
  repeat match goal with
  | |- context [expand ?s (?a + ?b)] =>
      let v := eval vm_compute in (a + b) in
      change (expand s (a + b)) with (expand s v)
  | |- context [(?a + ?b + ?c, _)] =>
      let v := eval vm_compute in (a + b + c) in
      change (a + b + c) with v
  end.

(** Runs the four loops of [Seed] one after the other, each on what the
    context says of the counter value it starts at. *)
Ltac run_seed_loops :=
  unfold Xoshiro256ss.Seed; cbv zeta;
  repeat (first [ rewrite seed_word_nz by assumption
                | rewrite seed_word_z by assumption ];
          eval_counter);
  reflexivity.

(** C7: the four loops of [Seed] share one counter.  When the counter
    values 0, 1, 2, 3 all expand to non-zero words, these are the state, in
    order; when one of them, [j], expands to zero, the counter moves past it
    and the state is made of the four other values among 0..4, in order. *)
Theorem Seed_shared_counter (r : UnsafeXoshiro256ssRNG) (seed : Z) :
  (expand seed 0 <> 0 -> expand seed 1 <> 0 ->
   expand seed 2 <> 0 -> expand seed 3 <> 0 ->
   Xoshiro256ss.Seed r seed =
   mkXoshiro (expand seed 0) (expand seed 1) (expand seed 2) (expand seed 3)) /\
  (forall j : Z, 0 <= j <= 3 -> expand seed j = 0 ->
   Xoshiro256ss.Seed r seed =
   mkXoshiro (expand seed (skipping j 0)) (expand seed (skipping j 1))
             (expand seed (skipping j 2)) (expand seed (skipping j 3))).
Proof.
  split.
  - intros N0 N1 N2 N3. run_seed_loops.
  - intros j Hj Ej.
    assert (forall k, 0 <= k <= 4 -> k <> j -> expand seed k <> 0) as Hother.
    { intros k Hk Hne Ek. apply Hne. apply (expand_zero_unique seed k j); auto; lia. }
    assert (j = 0 \/ j = 1 \/ j = 2 \/ j = 3) as [-> | [-> | [-> | ->]]] by lia;
      try (assert (expand seed 0 <> 0) by (apply Hother; lia));
      try (assert (expand seed 1 <> 0) by (apply Hother; lia));
      try (assert (expand seed 2 <> 0) by (apply Hother; lia));
      try (assert (expand seed 3 <> 0) by (apply Hother; lia));
      try (assert (expand seed 4 <> 0) by (apply Hother; lia));
      clear Hother; unfold skipping;
      cbn [Z.ltb Z.compare Pos.compare Pos.compare_cont];
      run_seed_loops.
Qed.

Lemma Seed_shared_counter_witness :
  Xoshiro256ss.Seed zero_state 0 =
    mkXoshiro (expand 0 0) (expand 0 1) (expand 0 2) (expand 0 3) /\
  Xoshiro256ss.Seed zero_state 0x61C8864680B583E9 =
    mkXoshiro (expand 0x61C8864680B583E9 (skipping 2 0))
              (expand 0x61C8864680B583E9 (skipping 2 1))
              (expand 0x61C8864680B583E9 (skipping 2 2))
              (expand 0x61C8864680B583E9 (skipping 2 3)).
Proof.
  split.
  - apply (proj1 (Seed_shared_counter zero_state 0)); vm_compute; discriminate.
  - apply (proj2 (Seed_shared_counter zero_state 0x61C8864680B583E9) 2);
      [lia | vm_compute; reflexivity].
Defined.

(* ===================================================================== *)
(** ** The all-zero state                                                 *)
(* ===================================================================== *)

Lemma Uint64_wf (r : UnsafeXoshiro256ssRNG) :
  wf_state r -> wf_state (snd (Xoshiro256ss.Uint64 r)).
Proof.
  intros (H0 & H1 & H2 & H3). destruct r as [a b c d].
  unfold Xoshiro256ss.Uint64, wf_state.
  cbn [s0 s1 s2 s3 set_s0 set_s1 set_s2 set_s3 snd] in *.
  split; [| split; [| split]].
  - auto using lxor_uint64.
  - auto using lxor_uint64.
  - apply lxor_uint64; [auto using lxor_uint64 | apply wrap64_range].
  - apply rol64_uint64. auto using lxor_uint64.
Qed.

(** [rol64] by 45 sends only zero to zero. *)
Lemma rol64_45_eq_0 (y : Z) : is_uint64 y -> rol64 y 45 = 0 -> y = 0.
Proof.
  unfold is_uint64, rol64. intros Hy Hr.
  apply Z.lor_eq_0_iff in Hr. destruct Hr as [Hl Hh].
  change (wrap64 (64 - 45)) with 19 in Hh.
  rewrite Z.shiftr_div_pow2 in Hh by lia.
  rewrite Z.shiftl_mul_pow2 in Hl by lia. unfold wrap64 in Hl.
  change (2 ^ 64) with 18446744073709551616 in *.
  change (2 ^ 45) with 35184372088832 in *.
  change (2 ^ 19) with 524288 in *.
  Z.div_mod_to_equations. lia.
Qed.

(** A word equal to itself shifted left by 17 is zero. *)
Lemma shl17_fixed (y : Z) : is_uint64 y -> y = wrap64 (Z.shiftl y 17) -> y = 0.
Proof.
  intros Hy E. rewrite Z.shiftl_mul_pow2 in E by lia.
  rewrite <- (wrap64_small y Hy).
  apply (unit_mul_eq_0 (2 ^ 17 - 1) 0xFFF7FFFBFFFDFFFF); [reflexivity |].
  unfold wrap64 in *. rewrite Z.mul_sub_distr_l, Z.mul_1_r.
  rewrite Zminus_mod, <- E. rewrite (Z.mod_small y) by exact Hy.
  rewrite Z.sub_diag. reflexivity.
Qed.

(** Only the all-zero state steps to the all-zero state. *)
Lemma Uint64_zero_inv (r : UnsafeXoshiro256ssRNG) :
  wf_state r -> snd (Xoshiro256ss.Uint64 r) = zero_state -> r = zero_state.
Proof.
  intros (H0 & H1 & H2 & H3). destruct r as [a b c d].
  unfold Xoshiro256ss.Uint64, zero_state.
  cbn [s0 s1 s2 s3 set_s0 set_s1 set_s2 set_s3 snd] in *.
  intros E. injection E as E0 E1 E2 E3.
  apply rol64_45_eq_0 in E3; [| auto using lxor_uint64].
  rewrite E3, Z.lxor_0_r in E0. subst a.
  rewrite Z.lxor_0_r in E1, E2.
  apply Z.lxor_eq in E1, E2, E3.
  rewrite <- E1 in E2. apply shl17_fixed in E2; [| exact H1].
  rewrite E3, <- E1, E2. reflexivity.
Qed.

Lemma advance_preserves (n : nat) (r : UnsafeXoshiro256ssRNG) :
  wf_state r -> r <> zero_state ->
  wf_state (advance n r) /\ advance n r <> zero_state.
Proof.
  revert r. induction n as [| n IH]; intros r Hwf Hnz.
  - split; assumption.
  - cbn [advance]. apply IH.
    + apply Uint64_wf. exact Hwf.
    + intros Hz. apply Hnz. apply Uint64_zero_inv; assumption.
Qed.

(** C9: the all-zero state steps to itself (returning 0), and no number
    of draws takes a state produced by [Seed] to it. *)
Theorem zero_state_unreachable :
  Xoshiro256ss.Uint64 zero_state = (0, zero_state) /\
  forall (r : UnsafeXoshiro256ssRNG) (seed : Z) (n : nat),
    advance n (Xoshiro256ss.Seed r seed) <> zero_state.
Proof.
  split; [reflexivity |].
  intros r seed n. apply advance_preserves.
  - apply Seed_wf.
  - intros Hz. destruct (Seed_no_zero_word r seed) as [Hs0 _].
    rewrite Hz in Hs0. apply Hs0. reflexivity.
Qed.

(* ===================================================================== *)
(** ** The byte-fill routine                                              *)
(* ===================================================================== *)

Lemma store_in_range (bytes : list Z) (i v : Z) :
  0 <= i < len bytes -> store bytes i v = Ok (<[Z.to_nat i := v]> bytes).
Proof.
  intros Hi. unfold store.
  destruct (Z.leb_spec 0 i); [| lia]. destruct (Z.ltb_spec i (len bytes)); [| lia].
  reflexivity.
Qed.

Lemma len_insert (bytes : list Z) (k : nat) (v : Z) :
  len (<[k := v]> bytes) = len bytes.
Proof. unfold len. rewrite length_insert. reflexivity. Qed.

(** What a slice holds after one assignment. *)
Lemma lookup_store (bytes : list Z) (i v : Z) (k : nat) :
  0 <= i < len bytes ->
  <[Z.to_nat i := v]> bytes !! k =
  if decide (k = Z.to_nat i) then Some v else bytes !! k.
Proof.
  intros Hi. destruct (decide (k = Z.to_nat i)) as [-> | NE].
  - apply list_lookup_insert_eq. unfold len in Hi. lia.
  - apply list_lookup_insert_ne. congruence.
Qed.

(** A chunk that fits is written: eight bytes of [x], least significant
    first, at positions [i .. i+7]; the rest of the slice is untouched. *)
Lemma store_chunk_fits (bytes : list Z) (i x : Z) :
  0 <= i -> i + 7 < len bytes ->
  exists bytes',
    store_chunk bytes i x = Ok bytes' /\
    len bytes' = len bytes /\
    (forall j, 0 <= j < 8 -> bytes' !! Z.to_nat (i + j) = Some (byte_of x j)) /\
    (forall k : nat, Z.of_nat k < i \/ i + 8 <= Z.of_nat k -> bytes' !! k = bytes !! k).
Proof.
  intros Hi Hfit. unfold store_chunk.
  repeat (rewrite store_in_range by (rewrite ?len_insert; lia); cbn [mbind result_bind]).
  eexists. split; [reflexivity |]. split; [rewrite !len_insert; reflexivity |]. split.
  - intros j Hj. unfold byte_of.
    repeat (rewrite lookup_store by (rewrite ?len_insert; lia)).
    assert (j = 0 \/ j = 1 \/ j = 2 \/ j = 3 \/ j = 4 \/ j = 5 \/ j = 6 \/ j = 7)
      as [-> | [-> | [-> | [-> | [-> | [-> | [-> | ->]]]]]]] by lia;
      repeat (case_decide; [try lia | try lia]); reflexivity.
  - intros k Hk.
    repeat (rewrite lookup_store by (rewrite ?len_insert; lia)).
    repeat (case_decide; [lia |]). reflexivity.
Qed.

Lemma nth_draw_S {G : Type} `{UnsafeRNG G} (g : G) (k : nat) :
  nth_draw g (S k) = nth_draw (snd (Uint64 g)) k.
Proof. reflexivity. Qed.

(** The first loop, run for [m] chunks that fit: [m] draws, written in
    order, eight bytes each. *)
Lemma fill_chunks_spec {G : Type} `{UnsafeRNG G} (m : nat) :
  forall (r : G) (bytes : list Z) (i : Z),
    0 <= i -> i + 8 * Z.of_nat m <= len bytes ->
    exists bytes',
      fill_chunks r bytes i (i + 8 * Z.of_nat m) =
        Ok (advance m r, bytes', i + 8 * Z.of_nat m) /\
      len bytes' = len bytes /\
      (forall k, i <= k < i + 8 * Z.of_nat m ->
         bytes' !! Z.to_nat k =
         Some (byte_of (nth_draw r (Z.to_nat ((k - i) / 8))) ((k - i) mod 8))) /\
      (forall k : nat, Z.of_nat k < i \/ i + 8 * Z.of_nat m <= Z.of_nat k ->
         bytes' !! k = bytes !! k).
Proof.
  induction m as [| m IH]; intros r bytes i Hi Hfit.
  - exists bytes. rewrite fill_chunks_eq.
    replace (i + 8 * Z.of_nat 0) with i by lia. rewrite Z.eqb_refl.
    split; [reflexivity |]. split; [reflexivity |]. split; [lia | auto].
  - rewrite fill_chunks_eq.
    destruct (Z.eqb_spec i (i + 8 * Z.of_nat (S m))) as [E | _]; [lia |].
    destruct (store_chunk_fits bytes i (fst (Uint64 r)) Hi ltac:(lia))
      as (b1 & -> & Hlen1 & Hin1 & Hout1).
    destruct (IH (snd (Uint64 r)) b1 (i + 8) ltac:(lia) ltac:(lia))
      as (b2 & Hrun & Hlen2 & Hin2 & Hout2).
    replace (i + 8 + 8 * Z.of_nat m) with (i + 8 * Z.of_nat (S m)) in * by lia.
    exists b2. split; [exact Hrun |]. split; [congruence |]. split.
    + intros k Hk. destruct (Z.lt_ge_cases k (i + 8)) as [Hlo | Hhi].
      * rewrite Hout2 by lia.
        replace k with (i + (k - i)) at 1 by lia. rewrite Hin1 by lia.
        rewrite Z.div_small, Z.mod_small by lia. reflexivity.
      * rewrite Hin2 by lia.
        replace (k - i) with (k - (i + 8) + 1 * 8) by lia.
        rewrite Z.div_add, Z.mod_add by lia.
        rewrite Z2Nat.inj_add by (try apply Z.div_pos; lia).
        rewrite Nat.add_comm. reflexivity.
    + intros k Hk. rewrite Hout2 by lia. apply Hout1. lia.
Qed.

(** The second loop, started at [i <= n] with [d] bytes to go: byte
    [k - i] of [x] lands at position [k]. *)
Lemma fill_tail_spec (d : nat) :
  forall (bytes : list Z) (x i : Z),
    0 <= i -> i + Z.of_nat d = len bytes ->
    exists bytes',
      fill_tail bytes x i (len bytes) = Ok bytes' /\
      len bytes' = len bytes /\
      (forall k, i <= k < len bytes ->
         bytes' !! Z.to_nat k = Some (byte_of x (k - i))) /\
      (forall k : nat, Z.of_nat k < i -> bytes' !! k = bytes !! k).
Proof.
  induction d as [| d IH]; intros bytes x i Hi Hd.
  - exists bytes. rewrite fill_tail_eq.
    destruct (Z.geb_spec i (len bytes)); [| lia].
    split; [reflexivity |]. split; [reflexivity |]. split; [lia | auto].
  - rewrite fill_tail_eq. destruct (Z.geb_spec i (len bytes)); [lia |].
    rewrite store_in_range by lia.
    destruct (IH (<[Z.to_nat i := byte x]> bytes) (Z.shiftr x 8) (i + 1))
      as (b2 & Hrun & Hlen2 & Hin2 & Hout2); [lia | rewrite len_insert; lia |].
    rewrite len_insert in *.
    exists b2. split; [exact Hrun |]. split; [exact Hlen2 |]. split.
    + intros k Hk. destruct (Z.eq_dec k i) as [-> | NE].
      * rewrite Hout2 by lia. rewrite lookup_store by lia.
        case_decide; [| congruence].
        unfold byte_of. rewrite Z.sub_diag. reflexivity.
      * rewrite Hin2 by lia. unfold byte_of.
        rewrite Z.shiftr_shiftr by lia. do 3 f_equal. lia.
    + intros k Hk. rewrite Hout2 by lia. rewrite lookup_store by lia.
      case_decide; [lia | reflexivity].
Qed.

(** [Bytes] never panics: it makes [len/8 + 1] draws, keeps the length of
    the slice, and writes at every position [k] byte [k mod 8] of draw
    [k / 8]. *)
Lemma Bytes_spec {G : Type} `{UnsafeRNG G} (r : G) (bytes : list Z) :
  exists bytes',
    Bytes r bytes = Ok (bytes', advance (S (Z.to_nat (len bytes / 8))) r) /\
    len bytes' = len bytes /\
    (forall k, 0 <= k < len bytes ->
       bytes' !! Z.to_nat k =
       Some (byte_of (nth_draw r (Z.to_nat (k / 8))) (k mod 8))).
Proof.
  unfold Bytes. cbv zeta.
  assert (0 <= len bytes) as Hn by (unfold len; lia).
  rewrite Z.rem_mod_nonneg by lia.
  pose proof (Z.div_mod (len bytes) 8 ltac:(lia)) as Hdm.
  pose proof (Z.mod_pos_bound (len bytes) 8 ltac:(lia)) as Hmod.
  assert (0 <= len bytes / 8) as Hq by (apply Z.div_pos; lia).
  set (q := Z.to_nat (len bytes / 8)).
  assert (len bytes - len bytes mod 8 = 0 + 8 * Z.of_nat q) as -> by (subst q; lia).
  destruct (fill_chunks_spec q r bytes 0 ltac:(lia) ltac:(subst q; lia))
    as (b1 & -> & Hlen1 & Hin1 & Hout1).
  cbn [mbind result_bind].
  destruct (Uint64 (advance q r)) as [x r'] eqn:Ex.
  destruct (fill_tail_spec (Z.to_nat (len bytes mod 8)) b1 x (0 + 8 * Z.of_nat q))
    as (b2 & Hrun & Hlen2 & Hin2 & Hout2); [lia | subst q; lia |].
  rewrite Hlen1 in Hrun, Hlen2, Hin2. rewrite Hrun. cbn [mbind result_bind mret result_ret].
  exists b2. split; [| split].
  - do 2 f_equal. clear -Ex. revert r Ex. induction q as [| q IHq]; intros r Ex.
    + cbn [advance] in *. rewrite Ex. reflexivity.
    + cbn [advance] in *. apply IHq. exact Ex.
  - exact Hlen2.
  - intros k Hk. destruct (Z.lt_ge_cases k (0 + 8 * Z.of_nat q)) as [Hlo | Hhi].
    + rewrite Hout2 by lia. rewrite Hin1 by lia. rewrite Z.sub_0_r. reflexivity.
    + rewrite Hin2 by lia.
      assert (k / 8 = Z.of_nat q) as Hkq.
      { symmetry. apply (Z.div_unique k 8 (Z.of_nat q) (k - 8 * Z.of_nat q)); subst q; lia. }
      assert (k mod 8 = k - (0 + 8 * Z.of_nat q)) as ->.
      { symmetry. apply (Z.mod_unique k 8 (Z.of_nat q)); subst q; lia. }
      rewrite Hkq, Nat2Z.id. unfold nth_draw. rewrite Ex. reflexivity.
Qed.

Lemma advance_counted {G : Type} `{UnsafeRNG G} (k : nat) :
  forall (g : G) (c : nat), advance k (g, c) = (advance k g, (c + k)%nat).
Proof.
  induction k as [| k IH]; intros g c.
  - cbn [advance]. rewrite Nat.add_0_r. reflexivity.
  - cbn [advance]. cbn [Uint64 counted_rng]. unfold counted_Uint64. cbn [fst snd].
    destruct (Uint64 g) as [x g'] eqn:E. cbn [snd]. rewrite IH. f_equal. lia.
Qed.

(** C2, as the spec states it, fails on a slice whose length is a multiple
    of 8: the empty slice costs one draw, not none, and eight bytes cost two
    draws, not one. *)
Lemma ceil_draws_refuted :
  ~ draws_as_stated reference_state [] /\
  ~ draws_as_stated reference_state (replicate 8 0).
Proof.
  split; intros (bytes' & g' & Hrun & _ & Hcalls);
    vm_compute in Hrun; injection Hrun as _ <-; vm_compute in Hcalls;
    discriminate Hcalls.
Qed.

(** C2, amended: for every generator and every slice of length [n],
    [Bytes] returns a slice of length [n] after exactly [n/8 + 1] calls of
    [Uint64] (rounding down), which is [ceil(n/8)] when [n] is not a multiple
    of 8 and [ceil(n/8) + 1] when it is; the empty slice costs one draw. *)
Theorem Bytes_draws {G : Type} `{UnsafeRNG G} (g : G) (c : nat) (bytes : list Z) :
  exists bytes' g',
    Bytes (g, c) bytes = Ok (bytes', g') /\
    length bytes' = length bytes /\
    g' = (advance (S (Z.to_nat (len bytes / 8))) g,
          (c + S (Z.to_nat (len bytes / 8)))%nat) /\
    Z.of_nat (calls g') - Z.of_nat c =
      (if len bytes mod 8 =? 0 then ceil_div8 (len bytes) + 1
       else ceil_div8 (len bytes)).
Proof.
  destruct (Bytes_spec (g, c) bytes) as (bytes' & Hrun & Hlen & _).
  rewrite advance_counted in Hrun.
  eexists; eexists. split; [exact Hrun |]. split; [unfold len in Hlen; lia |].
  split; [reflexivity |].
  unfold calls, ceil_div8. cbn [snd].
  assert (0 <= len bytes) as Hn by (unfold len; lia).
  assert (0 <= len bytes / 8) as Hq by (apply Z.div_pos; lia).
  destruct (Z.eqb_spec (len bytes mod 8) 0) as [E | NE];
    Z.div_mod_to_equations; lia.
Qed.

(** C8: every position [k] of the slice [Bytes] returns holds a byte of
    a draw, in little-endian order.  In the part made of whole chunks,
    position [k] holds byte [k mod 8] of draw [k / 8]; past it, the partial
    chunk holds the low bytes of the one draw that follows, the rest of which
    is dropped: the generator is left after that draw. *)
Theorem Bytes_little_endian {G : Type} `{UnsafeRNG G}
    (r : G) (bytes : list Z) (k : nat) :
  (k < length bytes)%nat ->
  exists bytes',
    Bytes r bytes = Ok (bytes', advance (S (length bytes / 8)) r) /\
    length bytes' = length bytes /\
    ((k < length bytes - length bytes mod 8)%nat ->
       bytes' !! k = Some (byte_of (nth_draw r (k / 8)) (Z.of_nat (k mod 8)))) /\
    ((length bytes - length bytes mod 8 <= k)%nat ->
       bytes' !! k =
       Some (byte_of (nth_draw r (length bytes / 8))
                     (Z.of_nat (k - (length bytes - length bytes mod 8))))).
Proof.
  intros Hk. destruct (Bytes_spec r bytes) as (bytes' & Hrun & Hlen & Hin).
  assert (Z.to_nat (len bytes / 8) = (length bytes / 8)%nat) as Eq.
  { unfold len. change 8 with (Z.of_nat 8). rewrite <- Nat2Z.inj_div. apply Nat2Z.id. }
  rewrite Eq in Hrun. exists bytes'. split; [exact Hrun |].
  split; [unfold len in Hlen; lia |].
  specialize (Hin (Z.of_nat k) ltac:(unfold len; lia)). rewrite Nat2Z.id in Hin.
  change 8 with (Z.of_nat 8) in Hin.
  rewrite <- Nat2Z.inj_div, <- Nat2Z.inj_mod, Nat2Z.id in Hin.
  split; intros Hpart; [exact Hin |].
  rewrite Hin.
  pose proof (Nat.div_mod_eq (length bytes) 8) as Hn.
  pose proof (Nat.mod_upper_bound (length bytes) 8 ltac:(lia)) as Hm.
  assert ((k / 8 = length bytes / 8)%nat) as ->.
  { symmetry. apply (Nat.div_unique k 8 _ (k - 8 * (length bytes / 8))); lia. }
  assert ((k mod 8 = k - (length bytes - length bytes mod 8))%nat) as ->.
  { symmetry. apply (Nat.mod_unique k 8 (length bytes / 8)); lia. }
  reflexivity.
Qed.

Lemma Bytes_little_endian_witness :
  exists bytes',
    Bytes reference_state (replicate 11 0) =
      Ok (bytes', advance (S (length (replicate 11 0) / 8)) reference_state) /\
    length bytes' = length (replicate 11 0) /\
    ((9 < length (replicate 11 0) - length (replicate 11 0) mod 8)%nat ->
       bytes' !! 9%nat =
       Some (byte_of (nth_draw reference_state (9 / 8)) (Z.of_nat (9 mod 8)))) /\
    ((length (replicate 11 0) - length (replicate 11 0) mod 8 <= 9)%nat ->
       bytes' !! 9%nat =
       Some (byte_of (nth_draw reference_state (length (replicate 11 0) / 8))
                     (Z.of_nat (9 - (length (replicate 11 0)
                                     - length (replicate 11 0) mod 8))))).
Proof.
  apply (Bytes_little_endian reference_state (replicate 11 0) 9).
  vm_compute. lia.
Defined.

(* ===================================================================== *)
(** ** The pool-backed wrapper                                            *)
(* ===================================================================== *)

Section PoolProperties.

Context {G : Type} `{UnsafeRNG G}.
Context {F : Type}.
Variable New : F -> G * F.

(** The word the wrapper returns is one draw of the generator it got
    from the pool. *)
Lemma Pool_Uint64_draw (pick : nat) (s : ThreadsafePoolRNG G F) :
  fst (ThreadsafePool.Uint64 New pick s) =
  fst (Uint64 (fst (ThreadsafePool.Get New pick s))).
Proof.
  unfold ThreadsafePool.Uint64.
  destruct (ThreadsafePool.Get New pick s) as [r s1]. cbn [fst].
  destruct (Uint64 r) as [x r']. reflexivity.
Qed.

(** C4: for a bound strictly between 0 and 2^32, [Uint32n] returns
    [((x & 0xFFFFFFFF) * bound) >> 32], where [x] is the word the wrapper's
    [Uint64] draws, and that value is at least 0 and below the bound. *)
Theorem Uint32n_below_bound (pick : nat) (s : ThreadsafePoolRNG G F) (bound : Z) :
  0 < bound < 2 ^ 32 ->
  let x := fst (ThreadsafePool.Uint64 New pick s) in
  fst (ThreadsafePool.Uint32n New pick s bound) =
    Z.shiftr (Z.land x 0xFFFFFFFF * bound) 32 /\
  0 <= fst (ThreadsafePool.Uint32n New pick s bound) < bound.
Proof.
  intros Hb. cbv zeta. unfold ThreadsafePool.Uint32n.
  destruct (ThreadsafePool.Uint64 New pick s) as [x s']. cbn [fst].
  change 0xFFFFFFFF with (Z.ones 32). rewrite Z.land_ones by lia.
  pose proof (Z.mod_pos_bound x (2 ^ 32) ltac:(lia)) as Hm.
  set (m := x mod 2 ^ 32) in *.
  assert (wrap64 bound = bound) as -> by (apply wrap64_small; unfold is_uint64; lia).
  assert (wrap64 (m * bound) = m * bound) as ->.
  { apply wrap64_small. unfold is_uint64.
    change (2 ^ 64) with (2 ^ 32 * 2 ^ 32). nia. }
  rewrite Z.shiftr_div_pow2 by lia.
  assert (0 <= m * bound / 2 ^ 32 < bound) as Hr.
  { split; [apply Z.div_pos; nia | apply Z.div_lt_upper_bound; nia]. }
  unfold wrap32. rewrite Z.mod_small by lia. split; [reflexivity | exact Hr].
Qed.

(** C5: [Seed] on the wrapper panics, whatever the seed and the state of
    the wrapper; it has no returning outcome. *)
Theorem Pool_Seed_panics (s : ThreadsafePoolRNG G F) (seed : Z) :
  ThreadsafePool.Seed s seed = Panic "Cant seed a ThreadsafePoolRNG" /\
  forall s' : ThreadsafePoolRNG G F, ThreadsafePool.Seed s seed <> Ok s'.
Proof.
  split; [reflexivity |]. intros s' E. discriminate E.
Qed.

(** C10: [Int63] returns the word the wrapper's [Uint64] draws with its
    top bit cleared, a value at least 0 and below 2^63. *)
Theorem Int63_nonnegative (pick : nat) (s : ThreadsafePoolRNG G F) :
  let x := fst (ThreadsafePool.Uint64 New pick s) in
  fst (ThreadsafePool.Int63 New pick s) = Z.land 0x7FFFFFFFFFFFFFFF x /\
  x = fst (Uint64 (fst (ThreadsafePool.Get New pick s))) /\
  0 <= fst (ThreadsafePool.Int63 New pick s) < 2 ^ 63.
Proof.
  cbv zeta. rewrite <- Pool_Uint64_draw. unfold ThreadsafePool.Int63.
  destruct (ThreadsafePool.Uint64 New pick s) as [x s']. cbn [fst].
  change 0x7FFFFFFFFFFFFFFF with (Z.ones 63).
  rewrite Z.land_comm, Z.land_ones by lia.
  pose proof (Z.mod_pos_bound x (2 ^ 63) ltac:(lia)) as Hm.
  set (m := x mod 2 ^ 63) in *.
  unfold int64. rewrite wrap64_small by (unfold is_uint64; lia).
  destruct (Z.ltb_spec m (2 ^ 63)); [| lia].
  split; [reflexivity | split; [reflexivity | exact Hm]].
Qed.

End PoolProperties.

Lemma Uint32n_below_bound_witness :
  0 < 10 < 2 ^ 32 /\
  (let x := fst (ThreadsafePool.Uint64 xoshiro_factory 0
                   (mkPool [reference_state] (fun _ => 0))) in
   fst (ThreadsafePool.Uint32n xoshiro_factory 0
          (mkPool [reference_state] (fun _ => 0)) 10) =
     Z.shiftr (Z.land x 0xFFFFFFFF * 10) 32 /\
   0 <= fst (ThreadsafePool.Uint32n xoshiro_factory 0
               (mkPool [reference_state] (fun _ => 0)) 10) < 10).
Proof.
  split; [lia |].
  apply (Uint32n_below_bound xoshiro_factory 0
           (mkPool [reference_state] (fun _ => 0)) 10).
  lia.
Defined.

(* ===================================================================== *)
(** ** [Splitmix64] is one-to-one                                         *)
(* ===================================================================== *)

(** Bit [n] of both sides of an equation between integers. *)
Ltac bit_of H n :=
  apply (f_equal (fun z => Z.testbit z n)) in H; cbv beta in H;
  rewrite ?Z.lxor_spec in H.

Lemma lxor_cancel_l (p x y : Z) : Z.lxor p x = Z.lxor p y -> x = y.
Proof.
  intros E. apply (f_equal (Z.lxor p)) in E.
  rewrite <- !Z.lxor_assoc, Z.lxor_nilpotent, !Z.lxor_0_l in E. exact E.
Qed.

Lemma lxor_cancel_r (p x y : Z) : Z.lxor x p = Z.lxor y p -> x = y.
Proof. rewrite !(Z.lxor_comm _ p). apply lxor_cancel_l. Qed.

(** [z ^ (z >> k)] determines a non-negative [z] when [k > 0]. *)
Lemma xorshift_inj (z w k : Z) :
  0 <= z -> 0 <= w -> 0 < k ->
  Z.lxor z (Z.shiftr z k) = Z.lxor w (Z.shiftr w k) -> z = w.
Proof.
  intros Hz Hw Hk E. apply Z.lxor_eq.
  apply (xorshift_eq_0 _ k); [apply Z.lxor_nonneg; lia | exact Hk |].
  rewrite Z.shiftr_lxor. apply Z.bits_inj'. intros n Hn.
  bit_of E n. rewrite !Z.lxor_spec, Z.bits_0.
  destruct (Z.testbit z n), (Z.testbit w n),
    (Z.testbit (Z.shiftr z k) n), (Z.testbit (Z.shiftr w k) n);
    simpl in *; congruence.
Qed.

(** Multiplying by a unit of Z/2^64 and then by its inverse gives back
    the word. *)
Lemma unit_mul_undo (m minv w : Z) :
  wrap64 (m * minv) = 1 -> wrap64 (wrap64 (w * m) * minv) = wrap64 w.
Proof.
  unfold wrap64. intros Hunit.
  rewrite Z.mul_mod_idemp_l by lia. rewrite <- Z.mul_assoc.
  rewrite <- Z.mul_mod_idemp_r, Hunit, Z.mul_1_r by lia. reflexivity.
Qed.

Lemma unit_mul_inj (m minv w w' : Z) :
  wrap64 (m * minv) = 1 -> is_uint64 w -> is_uint64 w' ->
  wrap64 (w * m) = wrap64 (w' * m) -> w = w'.
Proof.
  intros Hunit Hw Hw' E.
  rewrite <- (wrap64_small w Hw), <- (wrap64_small w' Hw').
  rewrite <- (unit_mul_undo m minv w Hunit), <- (unit_mul_undo m minv w' Hunit), E.
  reflexivity.
Qed.

Lemma xorshift_uint64 (z k : Z) :
  is_uint64 z -> 0 <= k -> is_uint64 (Z.lxor z (Z.shiftr z k)).
Proof. intros Hz Hk. apply lxor_uint64; [exact Hz | apply shiftr_uint64; auto]. Qed.

Lemma Splitmix64_inj (x y : Z) : Splitmix64 x = Splitmix64 y -> wrap64 x = wrap64 y.
Proof.
  unfold Splitmix64. cbv zeta. intros E.
  set (x1 := wrap64 (x + 0x9E3779B97F4A7C15)) in *.
  set (y1 := wrap64 (y + 0x9E3779B97F4A7C15)) in *.
  assert (is_uint64 x1) as Rx1 by apply wrap64_range.
  assert (is_uint64 y1) as Ry1 by apply wrap64_range.
  set (x2 := wrap64 (Z.lxor x1 (Z.shiftr x1 30) * 0xBF58476D1CE4E5B9)) in *.
  set (y2 := wrap64 (Z.lxor y1 (Z.shiftr y1 30) * 0xBF58476D1CE4E5B9)) in *.
  assert (is_uint64 x2) as Rx2 by apply wrap64_range.
  assert (is_uint64 y2) as Ry2 by apply wrap64_range.
  set (x3 := wrap64 (Z.lxor x2 (Z.shiftr x2 27) * 0x94D049BB133111EB)) in *.
  set (y3 := wrap64 (Z.lxor y2 (Z.shiftr y2 27) * 0x94D049BB133111EB)) in *.
  assert (is_uint64 x3) as Rx3 by apply wrap64_range.
  assert (is_uint64 y3) as Ry3 by apply wrap64_range.
  assert (x3 = y3) as E3.
  { apply (xorshift_inj x3 y3 31); unfold is_uint64 in *; auto; lia. }
  assert (x2 = y2) as E2.
  { apply (xorshift_inj x2 y2 27); unfold is_uint64 in Rx2, Ry2; try lia.
    apply (unit_mul_inj 0x94D049BB133111EB 0x319642B2D24D8EC3);
      [reflexivity | apply xorshift_uint64; auto; lia
       | apply xorshift_uint64; auto; lia | exact E3]. }
  assert (x1 = y1) as E1.
  { apply (xorshift_inj x1 y1 30); unfold is_uint64 in Rx1, Ry1; try lia.
    apply (unit_mul_inj 0xBF58476D1CE4E5B9 0x96DE1B173F119089);
      [reflexivity | apply xorshift_uint64; auto; lia
       | apply xorshift_uint64; auto; lia | exact E2]. }
  subst x1 y1. unfold wrap64 in *.
  change (2 ^ 64) with 18446744073709551616 in *.
  clear -E1. Z.div_mod_to_equations. lia.
Qed.

(** X1: [Splitmix64] is one-to-one on [uint64]: two indices with the
    same image are the same 64-bit word. *)
Theorem Splitmix64_injective (x y : Z) :
  is_uint64 x -> is_uint64 y -> Splitmix64 x = Splitmix64 y -> x = y.
Proof.
  intros Hx Hy E. apply Splitmix64_inj in E.
  rewrite !wrap64_small in E by assumption. exact E.
Qed.

Lemma Splitmix64_injective_witness :
  is_uint64 2 /\ is_uint64 2 /\ Splitmix64 2 = Splitmix64 2 /\ 2 = 2.
Proof.
  assert (is_uint64 2) as H2 by (unfold is_uint64; lia).
  split; [exact H2 |]. split; [exact H2 |]. split; [reflexivity |].
  apply (Splitmix64_injective 2 2 H2 H2). reflexivity.
Defined.

Lemma Splitmix64_zero_at (x : Z) :
  Splitmix64 x = 0 <-> wrap64 x = 0x61C8864680B583EB.
Proof.
  split.
  - intros E.
    assert (Splitmix64 0x61C8864680B583EB = 0) as Z0 by (vm_compute; reflexivity).
    rewrite <- Z0 in E. apply Splitmix64_inj in E. exact E.
  - intros E.
    assert (Splitmix64 x = Splitmix64 (wrap64 x)) as ->.
    { unfold Splitmix64. cbv zeta. unfold wrap64.
      rewrite Z.add_mod_idemp_l by lia. reflexivity. }
    rewrite E. vm_compute. reflexivity.
Qed.

(** X2: the only 64-bit index [Splitmix64] sends to zero is
    [0x61C8864680B583EB]. *)
Theorem Splitmix64_only_zero (x : Z) :
  Splitmix64 x = 0 <-> wrap64 x = 0x61C8864680B583EB.
Proof. exact (Splitmix64_zero_at x). Qed.

(* ===================================================================== *)
(** ** [rol64] outside and inside its intended range                      *)
(* ===================================================================== *)

Lemma shiftr_uint64_high (x k : Z) : is_uint64 x -> 64 <= k -> Z.shiftr x k = 0.
Proof.
  intros Hx Hk. apply Z.bits_inj'. intros n Hn.
  rewrite Z.shiftr_spec, Z.bits_0 by lia.
  apply testbit_uint64_high; [exact Hx | lia].
Qed.

Lemma shiftl_wrap_high (x k : Z) : 64 <= k -> wrap64 (Z.shiftl x k) = 0.
Proof.
  intros Hk. unfold wrap64. rewrite Z.shiftl_mul_pow2 by lia.
  replace k with (k - 64 + 64) by lia. rewrite Z.pow_add_r by lia.
  rewrite Z.mul_assoc. apply Z.mod_mul. lia.
Qed.

(** X3: on a [uint64] word, [rol64] by 0 or by 64 is the identity, and
    by any larger [uint64] count it returns 0: past 64 it is not a rotation. *)
Theorem rol64_edge_counts (x k : Z) :
  is_uint64 x -> is_uint64 k ->
  (k = 0 \/ k = 64 -> rol64 x k = x) /\
  (64 < k -> rol64 x k = 0).
Proof.
  intros Hx Hk. unfold rol64. split.
  - intros [-> | ->].
    + change (wrap64 (64 - 0)) with 64.
      rewrite Z.shiftl_0_r, (wrap64_small x Hx), shiftr_uint64_high by (auto; lia).
      apply Z.lor_0_r.
    + change (wrap64 (64 - 64)) with 0.
      rewrite shiftl_wrap_high by lia. rewrite Z.shiftr_0_r. apply Z.lor_0_l.
  - intros Hbig. rewrite shiftl_wrap_high by lia.
    rewrite shiftr_uint64_high; [reflexivity | exact Hx |].
    unfold is_uint64, wrap64 in *.
    change (2 ^ 64) with 18446744073709551616 in *.
    Z.div_mod_to_equations. lia.
Qed.

Lemma rol64_edge_counts_witness :
  (64 = 0 \/ 64 = 64 -> rol64 5 64 = 5) /\ (64 < 200 -> rol64 5 200 = 0).
Proof.
  assert (is_uint64 5) as H5 by (unfold is_uint64; lia).
  assert (is_uint64 64) as H64 by (unfold is_uint64; lia).
  assert (is_uint64 200) as H200 by (unfold is_uint64; lia).
  split.
  - exact (proj1 (rol64_edge_counts 5 64 H5 H64)).
  - exact (proj2 (rol64_edge_counts 5 200 H5 H200)).
Defined.

Lemma rotate_left_bits (x k i : Z) :
  0 <= i -> Z.testbit (rotate_left x k) i = (i <? 64) && Z.testbit x ((i - k) mod 64).
Proof. intros Hi. unfold rotate_left. rewrite of_bits_spec by lia. reflexivity. Qed.

Lemma rotate_left_undo (x k : Z) :
  is_uint64 x -> rotate_left (rotate_left x k) (64 - k) = x.
Proof.
  intros Hx. apply Z.bits_inj'. intros i Hi.
  rewrite rotate_left_bits by lia.
  destruct (Z.ltb_spec i 64) as [Hlt | Hge].
  - pose proof (Z.mod_pos_bound (i - (64 - k)) 64 ltac:(lia)) as Hj.
    rewrite rotate_left_bits by lia.
    destruct (Z.ltb_spec ((i - (64 - k)) mod 64) 64); [| lia].
    rewrite Zminus_mod_idemp_l.
    replace (i - (64 - k) - k) with (i + (-1) * 64) by lia.
    rewrite Z.mod_add, Z.mod_small by lia. reflexivity.
  - rewrite (testbit_uint64_high x i) by (auto; lia). reflexivity.
Qed.

Lemma rol64_undo (x k : Z) :
  is_uint64 x -> 0 < k < 64 -> rol64 (rol64 x k) (64 - k) = x.
Proof.
  intros Hx Hk.
  rewrite (rol64_rotate_left (rol64 x k)) by (try apply rol64_uint64; auto; lia).
  rewrite (rol64_rotate_left x k) by auto.
  apply rotate_left_undo. exact Hx.
Qed.

Lemma rol64_inj (x y k : Z) :
  is_uint64 x -> is_uint64 y -> 0 < k < 64 -> rol64 x k = rol64 y k -> x = y.
Proof.
  intros Hx Hy Hk E.
  rewrite <- (rol64_undo x k Hx Hk), <- (rol64_undo y k Hy Hk), E. reflexivity.
Qed.

(** X4: for a count strictly between 0 and 64, rotating a [uint64] word
    left by [k] and then by [64 - k] gives the word back. *)
Theorem rol64_round_trip (x k : Z) :
  is_uint64 x -> 0 < k < 64 -> rol64 (rol64 x k) (64 - k) = x.
Proof. exact (rol64_undo x k). Qed.

Lemma rol64_round_trip_witness :
  rol64 (rol64 0xd2db341f10bb232e 45) (64 - 45) = 0xd2db341f10bb232e.
Proof.
  apply (rol64_round_trip 0xd2db341f10bb232e 45); [unfold is_uint64 |]; lia.
Defined.

(* ===================================================================== *)
(** ** The Xoshiro256** transition and output are one-to-one              *)
(* ===================================================================== *)

Lemma testbit_wrap64 (z i : Z) :
  0 <= i -> Z.testbit (wrap64 z) i = (i <? 64) && Z.testbit z i.
Proof.
  intros Hi. unfold wrap64. destruct (Z.ltb_spec i 64).
  - rewrite Z.mod_pow2_bits_low by lia. reflexivity.
  - rewrite Z.mod_pow2_bits_high by lia. reflexivity.
Qed.

(** The truncated left shift distributes over xor. *)
Lemma shl_wrap_lxor (x y k : Z) :
  wrap64 (Z.shiftl (Z.lxor x y) k) =
  Z.lxor (wrap64 (Z.shiftl x k)) (wrap64 (Z.shiftl y k)).
Proof.
  apply Z.bits_inj'. intros n Hn.
  rewrite Z.lxor_spec, !testbit_wrap64, Z.shiftl_lxor, Z.lxor_spec by lia.
  destruct (n <? 64); simpl; reflexivity.
Qed.

(** A word that xors to zero with its own left shift by 17 is zero. *)
Lemma xorshl17_eq_0 (y : Z) :
  is_uint64 y -> Z.lxor y (wrap64 (Z.shiftl y 17)) = 0 -> y = 0.
Proof.
  intros Hy E. apply Z.lxor_eq in E. apply shl17_fixed; assumption.
Qed.

Lemma xorshl17_inj (x y : Z) :
  is_uint64 x -> is_uint64 y ->
  Z.lxor x (wrap64 (Z.shiftl x 17)) = Z.lxor y (wrap64 (Z.shiftl y 17)) -> x = y.
Proof.
  intros Hx Hy E. apply Z.lxor_eq. apply xorshl17_eq_0; [auto using lxor_uint64 |].
  rewrite shl_wrap_lxor. apply Z.bits_inj'. intros n Hn.
  bit_of E n. rewrite !Z.lxor_spec, Z.bits_0.
  destruct (Z.testbit x n), (Z.testbit y n),
    (Z.testbit (wrap64 (Z.shiftl x 17)) n), (Z.testbit (wrap64 (Z.shiftl y 17)) n);
    simpl in *; congruence.
Qed.

Lemma Uint64_transition_inj (r r' : UnsafeXoshiro256ssRNG) :
  wf_state r -> wf_state r' ->
  snd (Xoshiro256ss.Uint64 r) = snd (Xoshiro256ss.Uint64 r') -> r = r'.
Proof.
  intros (H0 & H1 & H2 & H3) (H0' & H1' & H2' & H3').
  destruct r as [a b c d], r' as [a' b' c' d'].
  unfold Xoshiro256ss.Uint64.
  cbn [s0 s1 s2 s3 set_s0 set_s1 set_s2 set_s3 snd] in *.
  intros E. injection E as E0 E1 E2 E3.
  apply rol64_inj in E3; [| auto using lxor_uint64 .. | lia].
  rewrite E3 in E0. apply lxor_cancel_r in E0. subst a'.
  assert (Z.lxor b (wrap64 (Z.shiftl b 17)) =
          Z.lxor b' (wrap64 (Z.shiftl b' 17))) as Eb.
  { apply Z.bits_inj'. intros n Hn. bit_of E1 n. bit_of E2 n.
    rewrite !Z.lxor_spec.
    destruct (Z.testbit a n), (Z.testbit b n), (Z.testbit b' n),
      (Z.testbit c n), (Z.testbit c' n),
      (Z.testbit (wrap64 (Z.shiftl b 17)) n),
      (Z.testbit (wrap64 (Z.shiftl b' 17)) n);
      simpl in *; congruence. }
  apply xorshl17_inj in Eb; [| assumption ..]. subst b'.
  apply lxor_cancel_l in E1. apply lxor_cancel_r in E1, E3. subst c' d'.
  reflexivity.
Qed.

(** X5: on states of four [uint64] words, the state transition of
    [Uint64] is one-to-one: two different states never step to the same
    state. *)
Theorem Uint64_transition_injective (r r' : UnsafeXoshiro256ssRNG) :
  wf_state r -> wf_state r' ->
  snd (Xoshiro256ss.Uint64 r) = snd (Xoshiro256ss.Uint64 r') -> r = r'.
Proof. exact (Uint64_transition_inj r r'). Qed.

Lemma reference_state_wf : wf_state reference_state.
Proof. unfold wf_state, is_uint64, reference_state. cbn [s0 s1 s2 s3]. lia. Qed.

Lemma Uint64_transition_injective_witness : reference_state = reference_state.
Proof.
  apply (Uint64_transition_injective reference_state reference_state
           reference_state_wf reference_state_wf).
  reflexivity.
Defined.

(** X6: on states of four [uint64] words, the word [Uint64] returns and
    the word [s1] of the state determine each other: two states give the same
    output exactly when their [s1] are equal. *)
Theorem Uint64_output_determines_s1 (r r' : UnsafeXoshiro256ssRNG) :
  wf_state r -> wf_state r' ->
  (fst (Xoshiro256ss.Uint64 r) = fst (Xoshiro256ss.Uint64 r') <-> s1 r = s1 r').
Proof.
  intros (_ & H1 & _) (_ & H1' & _). unfold Xoshiro256ss.Uint64. cbn [fst].
  split; [| intros ->; reflexivity].
  intros E.
  apply (unit_mul_inj 9 0x8E38E38E38E38E39) in E;
    [| reflexivity | apply rol64_uint64, wrap64_range ..].
  apply rol64_inj in E; [| apply wrap64_range .. | lia].
  apply (unit_mul_inj 5 0xCCCCCCCCCCCCCCCD) in E; [exact E | reflexivity | assumption ..].
Qed.

Lemma Uint64_output_determines_s1_witness :
  fst (Xoshiro256ss.Uint64 reference_state) =
  fst (Xoshiro256ss.Uint64 (set_s0 0 reference_state)) <->
  s1 reference_state = s1 (set_s0 0 reference_state).
Proof.
  apply (Uint64_output_determines_s1 reference_state (set_s0 0 reference_state)).
  - exact reference_state_wf.
  - unfold wf_state, is_uint64, reference_state, set_s0. cbn [s0 s1 s2 s3]. lia.
Defined.

(* ===================================================================== *)
(** ** What [Seed] depends on, and which seeds collide                    *)
(* ===================================================================== *)

(** [Seed] overwrites the whole state: whatever the generator held
    before, it ends as the generator [NewUnsafeXoshiro256ssRNG] returns. *)
Lemma Seed_resets (r : UnsafeXoshiro256ssRNG) (seed : Z) :
  Xoshiro256ss.Seed r seed = NewUnsafeXoshiro256ssRNG seed.
Proof.
  unfold NewUnsafeXoshiro256ssRNG, Xoshiro256ss.Seed. cbv zeta.
  destruct (Xoshiro256ss.seed_word seed 0) as [w0 j1].
  destruct (Xoshiro256ss.seed_word seed j1) as [w1 j2].
  destruct (Xoshiro256ss.seed_word seed j2) as [w2 j3].
  destruct (Xoshiro256ss.seed_word seed j3) as [w3 j4].
  reflexivity.
Qed.

Lemma expand_inj (seed i j : Z) :
  0 <= i < 2 ^ 64 -> 0 <= j < 2 ^ 64 -> expand seed i = expand seed j -> i = j.
Proof.
  unfold expand. intros Hi Hj E. apply Splitmix64_inj in E.
  unfold wrap64 in E. change (2 ^ 64) with 18446744073709551616 in *.
  Z.div_mod_to_equations. lia.
Qed.

(** Where a seeding loop started at counter [i] takes its word. *)
Lemma seed_word_landing (seed i : Z) :
  exists j, i <= j <= i + 1 /\ expand seed j <> 0 /\
            (j = i + 1 -> expand seed i = 0) /\
            Xoshiro256ss.seed_word seed i = (expand seed j, j + 1).
Proof.
  destruct (seed_word_cases seed i) as [[NE E] | (E0 & NE & E)].
  - exists i. repeat split; auto; lia.
  - exists (i + 1). repeat split; auto; try lia. rewrite E. f_equal. lia.
Qed.

(** The state after [Seed] is made of the expansions of four increasing
    counter values. *)
Lemma Seed_counters (r : UnsafeXoshiro256ssRNG) (seed : Z) :
  exists i0 i1 i2 i3,
    0 <= i0 <= 1 /\ i0 < i1 /\ i1 < i2 /\ i2 < i3 <= 7 /\
    (i0 = 1 -> expand seed 0 = 0) /\
    Xoshiro256ss.Seed r seed =
    mkXoshiro (expand seed i0) (expand seed i1) (expand seed i2) (expand seed i3).
Proof.
  unfold Xoshiro256ss.Seed. cbv zeta.
  destruct (seed_word_landing seed 0) as (i0 & B0 & _ & Z0 & ->).
  destruct (seed_word_landing seed (i0 + 1)) as (i1 & B1 & _ & _ & ->).
  destruct (seed_word_landing seed (i1 + 1)) as (i2 & B2 & _ & _ & ->).
  destruct (seed_word_landing seed (i2 + 1)) as (i3 & B3 & _ & _ & ->).
  exists i0, i1, i2, i3. repeat split; try lia; auto.
Qed.

(** X7: after [Seed], the four state words are pairwise different,
    for every seed. *)
Theorem Seed_words_distinct (r : UnsafeXoshiro256ssRNG) (seed : Z) :
  let r' := Xoshiro256ss.Seed r seed in
  s0 r' <> s1 r' /\ s0 r' <> s2 r' /\ s0 r' <> s3 r' /\
  s1 r' <> s2 r' /\ s1 r' <> s3 r' /\ s2 r' <> s3 r'.
Proof.
  cbv zeta.
  destruct (Seed_counters r seed) as (i0 & i1 & i2 & i3 & B0 & B1 & B2 & B3 & _ & ->).
  cbn [s0 s1 s2 s3].
  repeat split; intros E; apply expand_inj in E; lia.
Qed.

Lemma expand_wrap (seed i : Z) : expand (wrap64 seed) i = expand seed i.
Proof.
  unfold expand. f_equal. f_equal. f_equal.
  unfold wrap64. apply Z.mod_mod. lia.
Qed.

Lemma seed_word_wrap (seed i : Z) :
  Xoshiro256ss.seed_word (wrap64 seed) i = Xoshiro256ss.seed_word seed i.
Proof.
  destruct (seed_word_cases seed i) as [[NE E] | (E0 & NE & E)]; rewrite E.
  - rewrite <- (expand_wrap seed i). apply seed_word_nz.
    rewrite expand_wrap. exact NE.
  - rewrite <- (expand_wrap seed (i + 1)). apply seed_word_z.
    rewrite expand_wrap. exact E0.
Qed.

Lemma Seed_wrap (r : UnsafeXoshiro256ssRNG) (seed : Z) :
  Xoshiro256ss.Seed r (wrap64 seed) = Xoshiro256ss.Seed r seed.
Proof.
  unfold Xoshiro256ss.Seed. cbv zeta.
  repeat (rewrite seed_word_wrap; destruct (Xoshiro256ss.seed_word seed _) as [? ?]).
  reflexivity.
Qed.

(** X8: [Seed] leaves nothing of the state it is called on, and two
    seeds give the same generator exactly when they are the same 64-bit word
    or are the two words [0x61C8864680B583EB] and [0x61C8864680B583EC]: the
    first of these expands to zero at counter 0, so its four words are those
    of the second. *)
Theorem seeds_collide_iff (r r' : UnsafeXoshiro256ssRNG) (seed seed' : Z) :
  Xoshiro256ss.Seed r seed = Xoshiro256ss.Seed r' seed' <->
  wrap64 seed = wrap64 seed' \/
  (wrap64 seed = 0x61C8864680B583EB /\ wrap64 seed' = 0x61C8864680B583EC) \/
  (wrap64 seed = 0x61C8864680B583EC /\ wrap64 seed' = 0x61C8864680B583EB).
Proof.
  rewrite (Seed_resets r seed), (Seed_resets r' seed').
  unfold NewUnsafeXoshiro256ssRNG. split.
  - intros E.
    destruct (Seed_counters zero_state seed)
      as (i0 & i1 & i2 & i3 & B0 & _ & _ & _ & Z0 & E1).
    destruct (Seed_counters zero_state seed')
      as (j0 & j1 & j2 & j3 & C0 & _ & _ & _ & Z0' & E2).
    rewrite E1, E2 in E. injection E as E _ _ _.
    unfold expand in E. apply Splitmix64_inj in E.
    assert (i0 = 1 -> wrap64 seed = 0x61C8864680B583EB) as A.
    { intros Hi. specialize (Z0 Hi). unfold expand in Z0.
      apply Splitmix64_zero_at in Z0. unfold wrap64 in *.
      change (2 ^ 64) with 18446744073709551616 in *.
      clear -Z0. Z.div_mod_to_equations. lia. }
    assert (j0 = 1 -> wrap64 seed' = 0x61C8864680B583EB) as A'.
    { intros Hj. specialize (Z0' Hj). unfold expand in Z0'.
      apply Splitmix64_zero_at in Z0'. unfold wrap64 in *.
      change (2 ^ 64) with 18446744073709551616 in *.
      clear -Z0'. Z.div_mod_to_equations. lia. }
    unfold wrap64 in *. change (2 ^ 64) with 18446744073709551616 in *.
    clear E1 E2 Z0 Z0'.
    assert (i0 = 0 \/ i0 = 1) as [-> | ->] by lia;
      assert (j0 = 0 \/ j0 = 1) as [-> | ->] by lia;
      try specialize (A eq_refl); try specialize (A' eq_refl);
      clear -A A' E; Z.div_mod_to_equations; lia.
  - intros [E | [[E E'] | [E E']]];
      rewrite <- (Seed_wrap zero_state seed), <- (Seed_wrap zero_state seed').
    + rewrite E. reflexivity.
    + rewrite E, E'. vm_compute. reflexivity.
    + rewrite E, E'. vm_compute. reflexivity.
Qed.

(* ===================================================================== *)
(** ** More on the byte-fill routine                                      *)
(* ===================================================================== *)

Lemma advance_add {G : Type} `{UnsafeRNG G} (m n : nat) (g : G) :
  advance n (advance m g) = advance (m + n) g.
Proof.
  revert g. induction m as [| m IH]; intros g; [reflexivity |].
  cbn [advance Nat.add]. apply IH.
Qed.

Lemma nth_draw_advance {G : Type} `{UnsafeRNG G} (m k : nat) (g : G) :
  nth_draw (advance m g) k = nth_draw g (m + k).
Proof. unfold nth_draw. rewrite advance_add. reflexivity. Qed.

(** [Bytes_spec] with positions and draw numbers in [nat]. *)
Lemma Bytes_spec_nat {G : Type} `{UnsafeRNG G} (r : G) (bytes : list Z) :
  exists bytes',
    Bytes r bytes = Ok (bytes', advance (S (length bytes / 8)) r) /\
    length bytes' = length bytes /\
    (forall k : nat, (k < length bytes)%nat ->
       bytes' !! k = Some (byte_of (nth_draw r (k / 8)) (Z.of_nat (k mod 8)))).
Proof.
  destruct (Bytes_spec r bytes) as (bytes' & Hrun & Hlen & Hin).
  assert (Z.to_nat (len bytes / 8) = (length bytes / 8)%nat) as Eq.
  { unfold len. change 8 with (Z.of_nat 8). rewrite <- Nat2Z.inj_div. apply Nat2Z.id. }
  rewrite Eq in Hrun. exists bytes'. split; [exact Hrun |].
  split; [unfold len in Hlen; lia |].
  intros k Hk.
  specialize (Hin (Z.of_nat k) ltac:(unfold len; lia)). rewrite Nat2Z.id in Hin.
  change 8 with (Z.of_nat 8) in Hin.
  rewrite <- Nat2Z.inj_div, <- Nat2Z.inj_mod, Nat2Z.id in Hin. exact Hin.
Qed.

Lemma Bytes_same_length {G : Type} `{UnsafeRNG G} (r : G) (b1 b2 : list Z) :
  length b1 = length b2 -> Bytes r b1 = Bytes r b2.
Proof.
  intros Hlen.
  destruct (Bytes_spec_nat r b1) as (o1 & -> & L1 & P1).
  destruct (Bytes_spec_nat r b2) as (o2 & -> & L2 & P2).
  rewrite Hlen. do 2 f_equal. apply list_eq. intros k.
  destruct (Nat.lt_ge_cases k (length b1)) as [Hk | Hk].
  - rewrite P1, P2 by lia. reflexivity.
  - rewrite !lookup_ge_None_2 by lia. reflexivity.
Qed.

(** X9: what [Bytes] returns, and the generator it leaves, depend on
    the length of the slice only, not on what the slice held. *)
Theorem Bytes_ignores_contents {G : Type} `{UnsafeRNG G} (r : G) (b1 b2 : list Z) :
  length b1 = length b2 -> Bytes r b1 = Bytes r b2.
Proof. exact (Bytes_same_length r b1 b2). Qed.

Lemma Bytes_ignores_contents_witness :
  Bytes reference_state [1; 2; 3] = Bytes reference_state [7; 7; 7].
Proof.
  apply (Bytes_ignores_contents reference_state [1; 2; 3] [7; 7; 7]). reflexivity.
Defined.

(** X10: a shorter fill is a prefix of a longer one: from the same
    generator state, the bytes written into a slice of length [n1] are the
    first [n1] bytes written into any slice of length [n2 >= n1]. *)
Theorem Bytes_prefix {G : Type} `{UnsafeRNG G} (r : G) (b1 b2 : list Z) :
  (length b1 <= length b2)%nat ->
  exists o1 r1 o2 r2,
    Bytes r b1 = Ok (o1, r1) /\ Bytes r b2 = Ok (o2, r2) /\
    o1 = take (length b1) o2.
Proof.
  intros Hlen.
  destruct (Bytes_spec_nat r b1) as (o1 & E1 & L1 & P1).
  destruct (Bytes_spec_nat r b2) as (o2 & E2 & L2 & P2).
  exists o1, (advance (S (length b1 / 8)) r), o2, (advance (S (length b2 / 8)) r).
  split; [exact E1 |]. split; [exact E2 |].
  apply list_eq. intros k.
  destruct (Nat.lt_ge_cases k (length b1)) as [Hk | Hk].
  - rewrite lookup_take_lt by lia. rewrite P1, P2 by lia. reflexivity.
  - rewrite lookup_take_ge by lia. apply lookup_ge_None_2. lia.
Qed.

Lemma Bytes_prefix_witness :
  exists o1 r1 o2 r2,
    Bytes reference_state (replicate 5 0) = Ok (o1, r1) /\
    Bytes reference_state (replicate 16 0) = Ok (o2, r2) /\
    o1 = take (length (replicate 5 0)) o2.
Proof.
  apply (Bytes_prefix reference_state (replicate 5 0) (replicate 16 0)).
  vm_compute. lia.
Defined.

(** The eight bytes of a [uint64] word, least significant first, encode it. *)
Lemma le_uint64_bytes (x : Z) :
  is_uint64 x ->
  le_uint64 [byte_of x 0; byte_of x 1; byte_of x 2; byte_of x 3;
             byte_of x 4; byte_of x 5; byte_of x 6; byte_of x 7] = x.
Proof.
  unfold is_uint64, byte_of, byte. intros Hx. cbn [le_uint64].
  rewrite !Z.shiftr_div_pow2 by lia.
  change (2 ^ 64) with 18446744073709551616 in Hx.
  change (2 ^ 8) with 256.
  change (2 ^ (8 * 0)) with 1. change (2 ^ (8 * 1)) with 256.
  change (2 ^ (8 * 2)) with 65536. change (2 ^ (8 * 3)) with 16777216.
  change (2 ^ (8 * 4)) with 4294967296. change (2 ^ (8 * 5)) with 1099511627776.
  change (2 ^ (8 * 6)) with 281474976710656.
  change (2 ^ (8 * 7)) with 72057594037927936.
  Z.div_mod_to_equations. lia.
Qed.

(** X11: every whole 8-byte chunk [Bytes] writes decodes, least
    significant byte first, to the draw it came from: chunk [j] of the slice
    returned encodes draw [j] of the generator. *)
Theorem Bytes_chunk_decodes {G : Type} `{UnsafeRNG G} (r : G) (bytes : list Z) (j : nat) :
  (8 * (j + 1) <= length bytes)%nat ->
  exists o r',
    Bytes r bytes = Ok (o, r') /\
    le_uint64 (take 8 (drop (8 * j) o)) = nth_draw r j.
Proof.
  intros Hj. destruct (Bytes_spec_nat r bytes) as (o & E & L & P).
  exists o, (advance (S (length bytes / 8)) r). split; [exact E |].
  set (x := nth_draw r j).
  assert (take 8 (drop (8 * j) o) =
          [byte_of x 0; byte_of x 1; byte_of x 2; byte_of x 3;
           byte_of x 4; byte_of x 5; byte_of x 6; byte_of x 7]) as ->.
  { apply list_eq. intros k.
    destruct (Nat.lt_ge_cases k 8) as [Hk | Hk].
    - rewrite lookup_take_lt, lookup_drop by lia. rewrite P by lia.
      replace (8 * j + k)%nat with (k + j * 8)%nat by lia.
      rewrite Nat.div_add, Nat.Div0.mod_add by lia.
      rewrite Nat.div_small, Nat.mod_small by lia. cbn [Nat.add]. fold x.
      do 8 (destruct k as [| k]; [reflexivity |]). lia.
    - rewrite lookup_take_ge by lia.
      do 8 (destruct k as [| k]; [lia |]). reflexivity. }
  apply le_uint64_bytes. apply Uint64_range.
Qed.

Lemma Bytes_chunk_decodes_witness :
  exists o r',
    Bytes reference_state (replicate 20 0) = Ok (o, r') /\
    le_uint64 (take 8 (drop (8 * 1) o)) = nth_draw reference_state 1.
Proof.
  apply (Bytes_chunk_decodes reference_state (replicate 20 0) 1).
  vm_compute. lia.
Defined.

(** X12: two fills in a row do not continue one another: the first
    leaves the generator after draw [n1/8], so position [k] of the second
    slice holds byte [k mod 8] of draw [n1/8 + 1 + k/8], and in all
    [n1/8 + n2/8 + 2] draws are made. *)
Theorem Bytes_twice {G : Type} `{UnsafeRNG G} (r : G) (b1 b2 : list Z) (k : nat) :
  (k < length b2)%nat ->
  exists o1 r1 o2 r2,
    Bytes r b1 = Ok (o1, r1) /\ Bytes r1 b2 = Ok (o2, r2) /\
    o2 !! k = Some (byte_of (nth_draw r (S (length b1 / 8) + k / 8))
                            (Z.of_nat (k mod 8))) /\
    r2 = advance (S (length b1 / 8) + S (length b2 / 8)) r.
Proof.
  intros Hk.
  destruct (Bytes_spec_nat r b1) as (o1 & E1 & _ & _).
  destruct (Bytes_spec_nat (advance (S (length b1 / 8)) r) b2) as (o2 & E2 & _ & P2).
  exists o1, (advance (S (length b1 / 8)) r), o2,
    (advance (S (length b2 / 8)) (advance (S (length b1 / 8)) r)).
  split; [exact E1 |]. split; [exact E2 |]. split.
  - rewrite P2 by exact Hk. rewrite nth_draw_advance. reflexivity.
  - apply advance_add.
Qed.

Lemma Bytes_twice_witness :
  exists o1 r1 o2 r2,
    Bytes reference_state (replicate 8 0) = Ok (o1, r1) /\
    Bytes r1 (replicate 3 0) = Ok (o2, r2) /\
    o2 !! 2%nat =
      Some (byte_of (nth_draw reference_state
                       (S (length (replicate 8 0) / 8) + 2 / 8))
                    (Z.of_nat (2 mod 8))) /\
    r2 = advance (S (length (replicate 8 0) / 8) + S (length (replicate 3 0) / 8))
           reference_state.
Proof.
  apply (Bytes_twice reference_state (replicate 8 0) (replicate 3 0) 2).
  vm_compute. lia.
Defined.

(* ===================================================================== *)
(** ** More on the pool-backed wrapper                                    *)
(* ===================================================================== *)

Section PoolExtras.

Context {G : Type} `{UnsafeRNG G}.
Context {F : Type}.
Variable New : F -> G * F.

Lemma Pool_Uint64_head (r : G) (rest : list G) (src : F) :
  ThreadsafePool.Uint64 New 0 (mkPool (r :: rest) src) =
  (nth_draw r 0, mkPool (advance 1 r :: rest) src).
Proof.
  unfold ThreadsafePool.Uint64, ThreadsafePool.Get, ThreadsafePool.Put, nth_draw.
  cbn [rngPool source lookup list_lookup delete list_delete advance].
  destruct (Uint64 r) as [x r']. reflexivity.
Qed.

Lemma pool_draws_head (k : nat) :
  forall (r : G) (rest : list G) (src : F),
    pool_draws New k (mkPool (r :: rest) src) =
    (map (nth_draw r) (seq 0 k), mkPool (advance k r :: rest) src).
Proof.
  induction k as [| k IH]; intros r rest src; [reflexivity |].
  cbn [pool_draws]. rewrite Pool_Uint64_head. rewrite IH.
  cbn [seq map]. rewrite <- seq_shift, map_map. reflexivity.
Qed.

(** X13: used from one goroutine, the pool handing back the generator
    put last, a new wrapper behaves as one generator: it calls the factory
    once, at the first call, and its calls of [Uint64] return the successive
    draws of the generator the factory made. *)
Theorem pool_draws_sequential (src : F) (k : nat) :
  pool_draws New (S k) (NewSyncPoolRNG src) =
  (map (nth_draw (fst (New src))) (seq 0 (S k)),
   mkPool [advance (S k) (fst (New src))] (snd (New src))).
Proof.
  cbn [pool_draws]. unfold NewSyncPoolRNG at 1.
  unfold ThreadsafePool.Uint64 at 1. unfold ThreadsafePool.Get, ThreadsafePool.Put.
  cbn [rngPool source lookup list_lookup].
  destruct (New src) as [r f]. cbn [fst snd].
  destruct (Uint64 r) as [x r'] eqn:Ex. cbn [rngPool source].
  rewrite pool_draws_head.
  cbn [seq map advance]. unfold nth_draw at 2. cbn [advance]. rewrite Ex. cbn [fst snd].
  rewrite <- seq_shift, map_map. do 2 f_equal.
  apply map_ext. intros i. rewrite nth_draw_S, Ex. reflexivity.
Qed.


(** X15: [Read] never panics and returns a slice as long as the one it
    was given; and for [n >= 0], [Bytes(n)] is [Read] on any slice of length
    [n]: same bytes, same wrapper afterwards. *)
Theorem Pool_Read_total_and_Bytes (pick : nat) (s : ThreadsafePoolRNG G F)
    (p : list Z) :
  (exists o s', ThreadsafePool.Read New pick s p = Ok (o, s') /\
                length o = length p) /\
  ThreadsafePool.Bytes New pick s (len p) = ThreadsafePool.Read New pick s p.
Proof.
  unfold ThreadsafePool.Read, ThreadsafePool.Bytes, make_bytes.
  destruct (ThreadsafePool.Get New pick s) as [r s1]. split.
  - destruct (Bytes_spec_nat r p) as (o & -> & Hlen & _).
    cbn [mbind result_bind mret result_ret]. eexists; eexists.
    split; [reflexivity | exact Hlen].
  - destruct (Z.ltb_spec (len p) 0) as [Hneg | _]; [unfold len in Hneg; lia |].
    cbn [mbind result_bind].
    rewrite (Bytes_same_length r (replicate (Z.to_nat (len p)) 0) p).
    + reflexivity.
    + rewrite length_replicate. unfold len. lia.
Qed.


End PoolExtras.

(* ===================================================================== *)
(** ** The range reduction of [Uint32n]                                   *)
(* ===================================================================== *)

Lemma ceil_div_le (a b m : Z) : 0 < b -> (ceil_div a b <= m <-> a <= m * b).
Proof.
  intros Hb. unfold ceil_div.
  pose proof (Z.div_mod (a + b - 1) b ltac:(lia)) as Hdm.
  pose proof (Z.mod_pos_bound (a + b - 1) b Hb) as Hr.
  set (q := (a + b - 1) / b) in *. set (t := (a + b - 1) mod b) in *.
  split; intros Hle.
  - assert (b * q <= b * m) by (apply Z.mul_le_mono_nonneg_l; lia). lia.
  - destruct (Z.le_gt_cases q m) as [Hok | Hbad]; [exact Hok | exfalso].
    assert (b * (m + 1) <= b * q) by (apply Z.mul_le_mono_nonneg_l; lia). lia.
Qed.

Lemma div_eq_iff (a b v : Z) : 0 < b -> (a / b = v <-> v * b <= a < (v + 1) * b).
Proof.
  intros Hb. split.
  - intros <-. pose proof (Z.div_mod a b ltac:(lia)).
    pose proof (Z.mod_pos_bound a b Hb). lia.
  - intros Hv. symmetry. apply (Z.div_unique a b v (a - v * b)); lia.
Qed.

Section Uint32nExtras.

Context {G : Type} `{UnsafeRNG G}.
Context {F : Type}.
Variable New : F -> G * F.

(** For a bound up to 2^32 nothing wraps: the result is the quotient. *)
Lemma Uint32n_value (pick : nat) (s : ThreadsafePoolRNG G F) (bound : Z) :
  0 < bound <= 2 ^ 32 ->
  fst (ThreadsafePool.Uint32n New pick s bound) =
  (fst (ThreadsafePool.Uint64 New pick s) mod 2 ^ 32) * bound / 2 ^ 32.
Proof.
  intros Hb. unfold ThreadsafePool.Uint32n.
  destruct (ThreadsafePool.Uint64 New pick s) as [x s']. cbn [fst].
  change 0xFFFFFFFF with (Z.ones 32). rewrite Z.land_ones by lia.
  pose proof (Z.mod_pos_bound x (2 ^ 32) ltac:(lia)) as Hm.
  set (m := x mod 2 ^ 32) in *.
  assert (wrap64 bound = bound) as -> by (apply wrap64_small; unfold is_uint64; lia).
  assert (wrap64 (m * bound) = m * bound) as ->.
  { apply wrap64_small. unfold is_uint64.
    change (2 ^ 64) with (2 ^ 32 * 2 ^ 32). nia. }
  rewrite Z.shiftr_div_pow2 by lia.
  assert (0 <= m * bound / 2 ^ 32 < 2 ^ 32) as Hr.
  { split; [apply Z.div_pos; nia | apply Z.div_lt_upper_bound; nia]. }
  unfold wrap32. apply Z.mod_small. exact Hr.
Qed.

(** X17: for a bound up to 2^32 and a value [v] below it, [Uint32n]
    returns [v] exactly when the low 32 bits [m] of the draw lie in the
    interval from [ceil(v * 2^32 / bound)] to [ceil((v+1) * 2^32 / bound)]
    (excluded).  That interval is inside the 32-bit words and holds
    [floor(2^32 / bound)] or one more of them: every value below the bound is
    returned for some draw, and no value is favoured by more than one draw. *)
Theorem Uint32n_preimage (pick : nat) (s : ThreadsafePoolRNG G F) (bound v : Z) :
  0 < bound <= 2 ^ 32 -> 0 <= v < bound ->
  let m := fst (ThreadsafePool.Uint64 New pick s) mod 2 ^ 32 in
  let lo := ceil_div (v * 2 ^ 32) bound in
  let hi := ceil_div ((v + 1) * 2 ^ 32) bound in
  (fst (ThreadsafePool.Uint32n New pick s bound) = v <-> lo <= m < hi) /\
  0 <= lo /\ hi <= 2 ^ 32 /\
  2 ^ 32 / bound <= hi - lo <= 2 ^ 32 / bound + 1.
Proof.
  intros Hb Hv. cbv zeta. rewrite Uint32n_value by exact Hb.
  set (m := fst (ThreadsafePool.Uint64 New pick s) mod 2 ^ 32).
  set (N := 2 ^ 32) in *. assert (0 < N) as HN by (subst N; lia).
  split; [| split; [| split]].
  - rewrite div_eq_iff by exact HN.
    assert (forall a, m < ceil_div a bound <-> m * bound < a) as Hlt.
    { intros a. pose proof (ceil_div_le a bound m ltac:(lia)). lia. }
    rewrite (ceil_div_le (v * N) bound m) by lia. rewrite Hlt. lia.
  - destruct (Z.le_gt_cases 0 (ceil_div (v * N) bound)) as [Hok | Hbad]; [exact Hok |].
    assert (ceil_div (v * N) bound <= -1) as Hle by lia.
    apply ceil_div_le in Hle; [nia | lia].
  - apply ceil_div_le; [lia | nia].
  - pose proof (Z.div_mod N bound ltac:(lia)) as Hdm.
    pose proof (Z.mod_pos_bound N bound ltac:(lia)) as Hr.
    set (q := N / bound) in *. set (t := N mod bound) in *.
    set (lo := ceil_div (v * N) bound). set (hi := ceil_div ((v + 1) * N) bound).
    assert (v * N <= lo * bound) as L1 by (apply ceil_div_le; [lia | subst lo; lia]).
    assert ((lo - 1) * bound < v * N) as L2.
    { destruct (Z.lt_ge_cases ((lo - 1) * bound) (v * N)) as [Hok | Hbad]; [exact Hok |].
      apply (ceil_div_le (v * N) bound (lo - 1)) in Hbad; [subst lo; lia | lia]. }
    assert ((v + 1) * N <= hi * bound) as H1 by (apply ceil_div_le; [lia | subst hi; lia]).
    assert ((hi - 1) * bound < (v + 1) * N) as H2.
    { destruct (Z.lt_ge_cases ((hi - 1) * bound) ((v + 1) * N)) as [Hok | Hbad];
        [exact Hok |].
      apply (ceil_div_le ((v + 1) * N) bound (hi - 1)) in Hbad; [subst hi; lia | lia]. }
    clearbody lo hi q t. split; nia.
Qed.

Lemma Uint32n_value_any (pick : nat) (s : ThreadsafePoolRNG G F) (maxN : Z) :
  0 <= fst (ThreadsafePool.Uint32n New pick s maxN) < 2 ^ 32.
Proof.
  unfold ThreadsafePool.Uint32n.
  destruct (ThreadsafePool.Uint64 New pick s) as [x s']. cbn [fst].
  unfold wrap32. apply Z.mod_pos_bound. lia.
Qed.

(** X18: for every positive [maxN], also 2^32 and above where the
    product may wrap, [Uint32n] returns a value at least 0 and below [maxN]. *)
Theorem Uint32n_below_any_positive (pick : nat) (s : ThreadsafePoolRNG G F) (maxN : Z) :
  0 < maxN -> 0 <= fst (ThreadsafePool.Uint32n New pick s maxN) < maxN.
Proof.
  intros Hpos. destruct (Z.le_gt_cases maxN (2 ^ 32)) as [Hsmall | Hbig].
  - rewrite Uint32n_value by lia.
    pose proof (Z.mod_pos_bound (fst (ThreadsafePool.Uint64 New pick s)) (2 ^ 32)
                  ltac:(lia)) as Hm.
    split; [apply Z.div_pos; nia | apply Z.div_lt_upper_bound; nia].
  - pose proof (Uint32n_value_any pick s maxN). lia.
Qed.

(** X19: with [maxN = 0] nothing fails: [Uint32n] returns 0, and still
    consumes one draw like [Uint64]. *)
Theorem Uint32n_zero_bound (pick : nat) (s : ThreadsafePoolRNG G F) :
  ThreadsafePool.Uint32n New pick s 0 = (0, snd (ThreadsafePool.Uint64 New pick s)).
Proof.
  unfold ThreadsafePool.Uint32n.
  destruct (ThreadsafePool.Uint64 New pick s) as [x s']. cbn [snd].
  change (wrap64 0) with 0. rewrite Z.mul_0_r. reflexivity.
Qed.

End Uint32nExtras.

Lemma Uint32n_preimage_witness :
  let m := fst (ThreadsafePool.Uint64 xoshiro_factory 0
                  (mkPool [reference_state] (fun _ => 0))) mod 2 ^ 32 in
  let lo := ceil_div (3 * 2 ^ 32) 10 in
  let hi := ceil_div ((3 + 1) * 2 ^ 32) 10 in
  (fst (ThreadsafePool.Uint32n xoshiro_factory 0
          (mkPool [reference_state] (fun _ => 0)) 10) = 3 <-> lo <= m < hi) /\
  0 <= lo /\ hi <= 2 ^ 32 /\
  2 ^ 32 / 10 <= hi - lo <= 2 ^ 32 / 10 + 1.
Proof.
  apply (Uint32n_preimage xoshiro_factory 0
           (mkPool [reference_state] (fun _ => 0)) 10 3); lia.
Defined.

Lemma Uint32n_below_any_positive_witness :
  0 <= fst (ThreadsafePool.Uint32n xoshiro_factory 0
              (mkPool [reference_state] (fun _ => 0)) 5000000000) < 5000000000.
Proof.
  apply (Uint32n_below_any_positive xoshiro_factory 0
           (mkPool [reference_state] (fun _ => 0)) 5000000000).
  lia.
Defined.

(* ===================================================================== *)
(** ** The PCG32 generators of the benchmarks                             *)
(* ===================================================================== *)

Lemma lor_disjoint (a b : Z) : Z.land a b = 0 -> Z.lor a b = a + b.
Proof.
  intros Hd. rewrite <- (Z.lxor_lor a b Hd). symmetry.
  apply Z.add_nocarry_lxor. exact Hd.
Qed.

(** The increment [SetState] stores: the stream number doubled, modulo
    2^64, plus one. *)
Lemma stream_inc (initseq : Z) :
  Z.lor (wrap64 (Z.shiftl initseq 1)) 1 = 2 * (initseq mod 2 ^ 63) + 1.
Proof.
  rewrite Z.shiftl_mul_pow2 by lia.
  assert (wrap64 (initseq * 2 ^ 1) = 2 * (initseq mod 2 ^ 63)) as ->.
  { unfold wrap64. change (2 ^ 1) with 2.
    change (2 ^ 64) with 18446744073709551616.
    change (2 ^ 63) with 9223372036854775808.
    Z.div_mod_to_equations. lia. }
  apply lor_disjoint.
  change 1 with (Z.ones 1) at 1. rewrite Z.land_ones by lia.
  change (2 ^ 1) with 2. rewrite Z.mul_comm. apply Z.mod_mul. lia.
Qed.

Lemma Pcg32_Uint32_inc (r : Pcg32.UnsafePcg32RNG) :
  Pcg32.inc (snd (Pcg32.Uint32 r)) = Pcg32.inc r.
Proof. reflexivity. Qed.

Lemma Pcg32_after_inc (k : nat) :
  forall r, Pcg32.inc (Pcg32.after k r) = Pcg32.inc r.
Proof.
  induction k as [| k IH]; intros r; [reflexivity |].
  cbn [Pcg32.after]. rewrite IH. apply Pcg32_Uint32_inc.
Qed.

Lemma Pcg32_SetState_inc (r : Pcg32.UnsafePcg32RNG) (initstate initseq : Z) :
  Pcg32.inc (Pcg32.SetState r initstate initseq) = 2 * (initseq mod 2 ^ 63) + 1.
Proof.
  unfold Pcg32.SetState. cbv zeta. rewrite Pcg32_Uint32_inc.
  cbn [Pcg32.inc]. rewrite Pcg32_Uint32_inc. cbn [Pcg32.inc].
  apply stream_inc.
Qed.

(** X20: after [SetState] the increment of a PCG32 generator is odd, is
    fixed by the low 63 bits of the stream number, and no call of [Uint32]
    ever changes it. *)
Theorem Pcg32_inc_odd (r : Pcg32.UnsafePcg32RNG) (initstate initseq : Z) (k : nat) :
  let r' := Pcg32.after k (Pcg32.SetState r initstate initseq) in
  Pcg32.inc r' = 2 * (initseq mod 2 ^ 63) + 1 /\
  Z.odd (Pcg32.inc r') = true /\
  is_uint64 (Pcg32.inc r').
Proof.
  cbv zeta. rewrite Pcg32_after_inc, Pcg32_SetState_inc.
  pose proof (Z.mod_pos_bound initseq (2 ^ 63) ltac:(lia)) as Hm.
  split; [reflexivity |]. split.
  - rewrite Z.add_comm, Z.odd_add_mul_2. reflexivity.
  - unfold is_uint64. change (2 ^ 64) with (2 * 2 ^ 63). lia.
Qed.

(** X21: whatever the four arguments, [SetState] on the paired generator
    gives its two halves different increments: the two streams are distinct. *)
Theorem Pcg32x2_streams_distinct (r : Pcg32x2.UnsafePcg32x2RNG)
    (seed1 seq1 seed2 seq2 : Z) :
  let r' := Pcg32x2.SetState r seed1 seq1 seed2 seq2 in
  Pcg32.inc (Pcg32x2.gen0 r') <> Pcg32.inc (Pcg32x2.gen1 r').
Proof.
  cbv zeta. unfold Pcg32x2.SetState. cbv zeta.
  cbn [Pcg32x2.gen0 Pcg32x2.gen1]. rewrite !Pcg32_SetState_inc.
  change (Z.shiftr (wrap64 (Z.lnot 0)) 1) with (Z.ones 63).
  rewrite !Z.land_ones by lia.
  destruct (Z.eqb_spec (seq1 mod 2 ^ 63) (seq2 mod 2 ^ 63)) as [E | NE].
  - rewrite E. unfold wrap64, Z.lnot. rewrite <- Z.sub_1_r.
    change (2 ^ 64) with 18446744073709551616.
    change (2 ^ 63) with 9223372036854775808.
    clear E. Z.div_mod_to_equations. lia.
  - lia.
Qed.

Lemma Pcg32_step_inj (r r' : Pcg32.UnsafePcg32RNG) :
  wf_pcg32 r -> wf_pcg32 r' ->
  snd (Pcg32.Uint32 r) = snd (Pcg32.Uint32 r') -> r = r'.
Proof.
  intros [Hs Hi] [Hs' Hi']. destruct r as [s i], r' as [s' i'].
  unfold Pcg32.Uint32. cbn [Pcg32.state Pcg32.inc snd] in *.
  intros E. injection E as Es Ei. subst i'. f_equal.
  apply (unit_mul_inj 6364136223846793005 0xC097EF87329E28A5);
    [reflexivity | assumption .. |].
  pose proof (wrap64_range (s * 6364136223846793005)) as R.
  pose proof (wrap64_range (s' * 6364136223846793005)) as R'.
  set (u := wrap64 (s * 6364136223846793005)) in *.
  set (u' := wrap64 (s' * 6364136223846793005)) in *.
  unfold is_uint64, wrap64 in *.
  change (2 ^ 64) with 18446744073709551616 in *.
  clearbody u u'. clear -Es R R' Hi. Z.div_mod_to_equations. lia.
Qed.

(** X22: on [uint64] fields, the step of a PCG32 generator is
    one-to-one: two different generators never step to the same one. *)
Theorem Pcg32_step_injective (r r' : Pcg32.UnsafePcg32RNG) :
  wf_pcg32 r -> wf_pcg32 r' ->
  snd (Pcg32.Uint32 r) = snd (Pcg32.Uint32 r') -> r = r'.
Proof. exact (Pcg32_step_inj r r'). Qed.

Lemma Pcg32_step_injective_witness : Pcg32.mk 7 3 = Pcg32.mk 7 3.
Proof.
  assert (wf_pcg32 (Pcg32.mk 7 3)) as Hwf.
  { unfold wf_pcg32, is_uint64. cbn [Pcg32.state Pcg32.inc]. lia. }
  apply (Pcg32_step_injective (Pcg32.mk 7 3) (Pcg32.mk 7 3) Hwf Hwf).
  reflexivity.
Defined.

(** X23: the word the paired generator returns holds the draw of its
    first half in its high 32 bits and the draw of its second half in its low
    32 bits, and each half has made exactly one step. *)
Theorem Pcg32x2_Uint64_halves (r : Pcg32x2.UnsafePcg32x2RNG) :
  let x := fst (Pcg32x2.Uint64 r) in
  let r' := snd (Pcg32x2.Uint64 r) in
  Z.shiftr x 32 = fst (Pcg32.Uint32 (Pcg32x2.gen0 r)) /\
  x mod 2 ^ 32 = fst (Pcg32.Uint32 (Pcg32x2.gen1 r)) /\
  is_uint64 x /\
  Pcg32x2.gen0 r' = snd (Pcg32.Uint32 (Pcg32x2.gen0 r)) /\
  Pcg32x2.gen1 r' = snd (Pcg32.Uint32 (Pcg32x2.gen1 r)).
Proof.
  cbv zeta. unfold Pcg32x2.Uint64.
  assert (forall g, 0 <= fst (Pcg32.Uint32 g) < 2 ^ 32) as Hrange.
  { intros g. unfold Pcg32.Uint32. cbn [fst]. unfold wrap32.
    apply Z.mod_pos_bound. lia. }
  pose proof (Hrange (Pcg32x2.gen0 r)) as Hhi.
  pose proof (Hrange (Pcg32x2.gen1 r)) as Hlo.
  destruct (Pcg32.Uint32 (Pcg32x2.gen0 r)) as [hi g0].
  cbn [Pcg32x2.gen0 Pcg32x2.gen1].
  destruct (Pcg32.Uint32 (Pcg32x2.gen1 r)) as [lo g1].
  cbn [fst snd Pcg32x2.gen0 Pcg32x2.gen1] in *.
  rewrite (wrap64_small hi), (wrap64_small lo) by (unfold is_uint64; lia).
  rewrite Z.shiftl_mul_pow2 by lia.
  assert (is_uint64 (hi * 2 ^ 32)) as Hw.
  { unfold is_uint64. change (2 ^ 64) with (2 ^ 32 * 2 ^ 32). nia. }
  rewrite (wrap64_small _ Hw).
  assert (Z.land (hi * 2 ^ 32) lo = 0) as Hd.
  { apply Z.bits_inj'. intros n Hn. rewrite Z.land_spec, Z.bits_0.
    destruct (Z.lt_ge_cases n 32) as [Hl | Hg].
    - rewrite Z.mul_pow2_bits_low by lia. reflexivity.
    - assert (Z.testbit lo n = false) as ->.
      { rewrite <- (Z.mod_small lo (2 ^ 32)) by lia.
        apply Z.mod_pow2_bits_high. lia. }
      apply andb_false_r. }
  rewrite (lor_disjoint _ _ Hd).
  split; [| split; [| split; [| split]]]; try reflexivity.
  - rewrite Z.shiftr_div_pow2 by lia.
    rewrite Z.add_comm, Z.div_add by lia. rewrite Z.div_small by lia. reflexivity.
  - rewrite Z.add_comm, Z.mod_add by lia. apply Z.mod_small. lia.
  - unfold is_uint64 in *. change (2 ^ 64) with (2 ^ 32 * 2 ^ 32). nia.
Qed.

(* ===================================================================== *)
(** ** The JSF64 generator of the benchmarks                              *)
(* ===================================================================== *)

Lemma rot64_uint64 (x k : Z) : is_uint64 x -> is_uint64 (rot64 x k).
Proof. exact (rol64_uint64 x k). Qed.

(** Adding the same word modulo 2^64 to two [uint64] words keeps them
    apart. *)
Lemma wrap_add_cancel_r (x y p : Z) :
  is_uint64 x -> is_uint64 y -> wrap64 (x + p) = wrap64 (y + p) -> x = y.
Proof.
  unfold is_uint64, wrap64. change (2 ^ 64) with 18446744073709551616.
  intros Hx Hy E. Z.div_mod_to_equations. lia.
Qed.

Lemma wrap_sub_cancel_r (x y p : Z) :
  is_uint64 x -> is_uint64 y -> wrap64 (x - p) = wrap64 (y - p) -> x = y.
Proof.
  unfold is_uint64, wrap64. change (2 ^ 64) with 18446744073709551616.
  intros Hx Hy E. Z.div_mod_to_equations. lia.
Qed.

Lemma Jsf64_step_inj (x y : Jsf64.UnsafeJsf64RNG) :
  Jsf64.wf x -> Jsf64.wf y ->
  snd (Jsf64.Uint64 x) = snd (Jsf64.Uint64 y) -> x = y.
Proof.
  intros (Ha & Hb & Hc & Hd) (Ha' & Hb' & Hc' & Hd').
  destruct x as [a b c d], y as [a' b' c' d'].
  unfold Jsf64.Uint64. cbn [Jsf64.a Jsf64.b Jsf64.c Jsf64.d snd] in *.
  intros E. injection E as EA EB EC ED.
  rewrite EA in ED. rewrite !(Z.add_comm _ (Z.lxor b' (rot64 c' 13))) in ED.
  rewrite !(Z.add_comm (Z.lxor b' (rot64 c' 13))) in ED.
  apply wrap_add_cancel_r in ED; [| apply wrap64_range ..].
  rewrite ED in EC. apply wrap_add_cancel_r in EC; [| assumption ..]. subst d'.
  apply wrap_add_cancel_r in EB; [| assumption ..]. subst c'.
  apply lxor_cancel_r in EA. subst b'.
  apply wrap_sub_cancel_r in ED; [| assumption ..]. subst a'.
  reflexivity.
Qed.

(** X24: on [uint64] fields, the step of the JSF64 generator is
    one-to-one: two different states never step to the same state. *)
Theorem Jsf64_step_injective (x y : Jsf64.UnsafeJsf64RNG) :
  Jsf64.wf x -> Jsf64.wf y ->
  snd (Jsf64.Uint64 x) = snd (Jsf64.Uint64 y) -> x = y.
Proof. exact (Jsf64_step_inj x y). Qed.

Lemma Jsf64_step_injective_witness :
  Jsf64.mk 0xf1ea5eed 1 1 1 = Jsf64.mk 0xf1ea5eed 1 1 1.
Proof.
  assert (Jsf64.wf (Jsf64.mk 0xf1ea5eed 1 1 1)) as Hwf.
  { unfold Jsf64.wf, is_uint64. cbn [Jsf64.a Jsf64.b Jsf64.c Jsf64.d]. lia. }
  apply (Jsf64_step_injective _ _ Hwf Hwf). reflexivity.
Defined.

Lemma Jsf64_step_wf (x : Jsf64.UnsafeJsf64RNG) :
  Jsf64.wf x -> Jsf64.wf (snd (Jsf64.Uint64 x)).
Proof.
  intros (Ha & Hb & Hc & Hd). destruct x as [a b c d].
  unfold Jsf64.Uint64, Jsf64.wf. cbn [Jsf64.a Jsf64.b Jsf64.c Jsf64.d snd] in *.
  split; [| split; [| split]]; try apply wrap64_range.
  apply lxor_uint64; [assumption | apply rot64_uint64; assumption].
Qed.

Lemma Jsf64_iter_inj (n : nat) :
  forall x y, Jsf64.wf x -> Jsf64.wf y ->
    Nat.iter n (fun x => snd (Jsf64.Uint64 x)) x =
    Nat.iter n (fun x => snd (Jsf64.Uint64 x)) y -> x = y.
Proof.
  induction n as [| n IH]; intros x y Hx Hy E; [exact E |].
  rewrite !Nat.iter_succ_r in E. apply IH in E; [| apply Jsf64_step_wf; assumption ..].
  apply Jsf64_step_inj; assumption.
Qed.

(** X25: [Seed] on the JSF64 generator overwrites the whole state, and
    different 64-bit seeds give different generators: the twenty warm-up
    rounds never merge two seeds. *)
Theorem Jsf64_Seed_injective (x y : Jsf64.UnsafeJsf64RNG) (seed seed' : Z) :
  Jsf64.Seed x seed = Jsf64.NewUnsafeJsf64RNG seed /\
  (Jsf64.Seed x seed = Jsf64.Seed y seed' <-> wrap64 seed = wrap64 seed').
Proof.
  split; [reflexivity |]. unfold Jsf64.Seed. cbv zeta.
  cbn [Jsf64.a Jsf64.b Jsf64.c Jsf64.d]. split.
  - intros E. apply Jsf64_iter_inj in E.
    + injection E as E. exact E.
    + unfold Jsf64.wf, is_uint64. cbn [Jsf64.a Jsf64.b Jsf64.c Jsf64.d].
      pose proof (wrap64_range seed) as R. unfold is_uint64 in R. lia.
    + unfold Jsf64.wf, is_uint64. cbn [Jsf64.a Jsf64.b Jsf64.c Jsf64.d].
      pose proof (wrap64_range seed') as R. unfold is_uint64 in R. lia.
  - intros ->. reflexivity.
Qed.
